(** * uproot4.interpretation.library: output libraries (NumPy, Awkward, Pandas, CuPy)

  A shallow embedding of [src/uproot4/interpretation/library.py] and the
  properties of it that the specification states.  Python values are
  embedded as follows:

  - [str] as [string]; slicing and [str.strip] are written out on it;
  - a [dict] as an insertion-ordered association list with unique keys
    ([Dict]), a [list] as [list];
  - exceptions as the error side of [Result];
  - the interpreter's import machinery as a [World] threaded through the
    code by a small state-and-error monad [M];
  - the containers of the third-party libraries (awkward1 layouts, pandas
    objects) as constructor terms: the code only builds them. *)

From Stdlib Require Import String Ascii List Arith Bool ZArith Lia DecimalString
  DecimalNat Permutation.
Import ListNotations.
Local Open Scope string_scope.
Local Open Scope list_scope.

Set Implicit Arguments.
Set Warnings "-register-all".

(** ** Python basics *)

Module Py.

(** The message of an exception: literal text, or text followed by the
    [repr] of a string (as in ["...{0}".format(repr(x))]). *)
Inductive Message : Type :=
| Text (s : string)
| TextRepr (s : string) (arg : string).

Inductive Error : Type :=
| AssertionError (m : Message)
| ImportError (m : Message)
| ModuleNotFoundError (module : string)
| NotImplementedError
| TypeError (m : Message)
| ValueError (m : Message)
| KeyError (key : string)
| IndexError
| AttributeError (attr : string).

Inductive Result (A : Type) : Type :=
| Ok (a : A)
| Raise (e : Error).
Arguments Raise {A} e.

Definition rbind {A B} (r : Result A) (k : A -> Result B) : Result B :=
  match r with
  | Ok a => k a
  | Raise e => Raise e
  end.

(** [for x in xs: acc = body(acc, x)], where the body may raise. *)
Fixpoint for_each {A S} (body : S -> A -> Result S) (xs : list A) (acc : S)
  : Result S :=
  match xs with
  | [] => Ok acc
  | x :: rest => rbind (body acc x) (for_each body rest)
  end.

(** [[f(x) for x in xs]], where [f] may raise. *)
Fixpoint comprehension {A B} (f : A -> Result B) (xs : list A)
  : Result (list B) :=
  match xs with
  | [] => Ok []
  | x :: rest =>
      rbind (f x) (fun y =>
      rbind (comprehension f rest) (fun ys => Ok (y :: ys)))
  end.

(** [enumerate(xs)], counting from [start]. *)
Fixpoint enumerate_from {A} (start : nat) (xs : list A) : list (nat * A) :=
  match xs with
  | [] => []
  | x :: rest => (start, x) :: enumerate_from (S start) rest
  end.

Definition enumerate {A} (xs : list A) : list (nat * A) := enumerate_from 0 xs.

(** [str(n)] for a non-negative integer. *)
Definition str_of_nat (n : nat) : string :=
  NilEmpty.string_of_uint (Nat.to_uint n).

(** *** Ordered dictionaries *)

Definition Dict (V : Type) : Type := list (string * V).

Fixpoint dict_get {V} (d : Dict V) (k : string) : option V :=
  match d with
  | [] => None
  | (k', v) :: rest => if String.eqb k k' then Some v else dict_get rest k
  end.

(** [d[k]]: a missing key raises [KeyError]. *)
Definition getitem {V} (d : Dict V) (k : string) : Result V :=
  match dict_get d k with
  | Some v => Ok v
  | None => Raise (KeyError k)
  end.

(** [d[k] = v]: an existing key keeps its position and takes the new
    value, a new key goes to the end. *)
Fixpoint dict_set {V} (d : Dict V) (k : string) (v : V) : Dict V :=
  match d with
  | [] => [(k, v)]
  | (k', v') :: rest =>
      if String.eqb k k' then (k', v) :: rest else (k', v') :: dict_set rest k v
  end.

(** [dict(pairs)]. *)
Definition dict_of {V} (pairs : list (string * V)) : Dict V :=
  fold_left (fun d kv => dict_set d (fst kv) (snd kv)) pairs [].

Definition keys {V} (d : Dict V) : list string := map fst d.
Definition values {V} (d : Dict V) : list V := map snd d.

(** [del d[k]] for a key that may be absent. *)
Fixpoint dict_remove {V} (d : Dict V) (k : string) : Dict V :=
  match d with
  | [] => []
  | (k', v') :: rest =>
      if String.eqb k k' then dict_remove rest k else (k', v') :: dict_remove rest k
  end.

End Py.
Import Py.

(** ** The import machinery and the [imported] properties *)

Module Imports.

(** What an [import] statement can see and change: the distributions
    installed in the environment, the table of loaded modules
    ([sys.modules]) and, for the claims about repeated acquisition, the
    number of times the finders were run. *)
Record World : Type := mkWorld {
  installed : list string;
  sys_modules : list string;
  acquisitions : nat
}.

Definition mem (s : string) (l : list string) : bool :=
  existsb (String.eqb s) l.

(** Computations that read and change the world and may raise. *)
Definition M (A : Type) : Type := World -> Result A * World.

Definition ret {A} (a : A) : M A := fun w => (Ok a, w).
Definition raise {A} (e : Error) : M A := fun w => (Raise e, w).
Definition bind {A B} (m : M A) (k : A -> M B) : M B :=
  fun w =>
    match m w with
    | (Ok a, w') => k a w'
    | (Raise e, w') => (Raise e, w')
    end.
Definition lift {A} (r : Result A) : M A := fun w => (r, w).

(** [try: body  except ImportError: raise e]. [ModuleNotFoundError] is a
    subclass of [ImportError]. *)
Definition try_except_ImportError {A} (body : M A) (e : Error) : M A :=
  fun w =>
    match body w with
    | (Raise (ImportError _), w') => (Raise e, w')
    | (Raise (ModuleNotFoundError _), w') => (Raise e, w')
    | other => other
    end.

(** A handle to a loaded module. *)
Inductive Module_ : Type := Mod (name : string).

(** The statement [import name]: a loaded module is taken from
    [sys.modules]; otherwise the finders run, and the module is loaded and
    recorded when it is installed.  A failed import records nothing. *)
Definition import_ (name : string) : M Module_ :=
  fun w =>
    if mem name (sys_modules w) then (Ok (Mod name), w)
    else
      let n := S (acquisitions w) in
      if mem name (installed w)
      then (Ok (Mod name), mkWorld (installed w) (name :: sys_modules w) n)
      else (Raise (ModuleNotFoundError name),
            mkWorld (installed w) (sys_modules w) n).

(** A module that an [import] statement can deliver: loaded already, or
    installed. *)
Definition available (name : string) (w : World) : bool :=
  mem name (sys_modules w) || mem name (installed w).

End Imports.
Import Imports.

Declare Scope py_scope.
Delimit Scope py_scope with py.
Notation "x <- m ;; k" := (bind m (fun x => k))
(at level 61, m at next level, right associativity) : py_scope.
Notation "x <~ r ;; k" := (rbind r (fun x => k))
(at level 61, r at next level, right associativity) : py_scope.
Local Open Scope py_scope.

(** ** Data model: the arrays handed to [finalize] *)

Module Data.

(** NumPy scalar types, as far as the code tells them apart. *)
Inductive DType : Type :=
| int8 | int16 | int32 | int64
| uint8 | uint16 | uint32 | uint64
| float32 | float64 | bool_.

(** [issubclass(dtype.type, cls)] on scalar types: every one of them is a
    leaf class. *)
Definition issubclass (d cls : DType) : bool :=
  match d, cls with
  | int8, int8 | int16, int16 | int32, int32 | int64, int64
  | uint8, uint8 | uint16, uint16 | uint32, uint32 | uint64, uint64
  | float32, float32 | float64, float64 | bool_, bool_ => true
  | _, _ => false
  end.

(** An integer array, used for offsets. *)
Record IntArray : Type := mkIntArray {
  ia_dtype : DType;
  ia_values : list Z
}.

(** [numpy.array_equal(a, b)] on one-dimensional integer arrays: same
    length and equal elements; the element types are not compared. *)
Fixpoint list_Z_eqb (a b : list Z) : bool :=
  match a, b with
  | [], [] => true
  | x :: a', y :: b' => Z.eqb x y && list_Z_eqb a' b'
  | _, _ => false
  end.

Definition array_equal (a b : IntArray) : bool :=
  list_Z_eqb (ia_values a) (ia_values b).

(** The storage of an array; the code never looks inside. *)
Inductive Buffer : Type := Buf (id : nat).

(** A NumPy array: [dtype.names] ([None] for a plain element type),
    [shape], and its storage. *)
Record NdArray : Type := mkNdArray {
  dtype_names : option (list string);
  shape : list nat;
  buffer : Buffer
}.

(** NumPy values the code computes from its input. *)
Inductive NpValue : Type :=
| Given (a : NdArray)
| FromBufferUInt8 (content : Buffer)
    (* numpy.frombuffer(content, dtype=numpy.dtype(numpy.uint8)) *)
| FlatField (a : NdArray) (name : string)
    (* numpy.array(array.reshape(-1)[name]) *)
| Field (a : NdArray) (name : string)
    (* array[name] *)
| FieldAt (a : NdArray) (name : string) (tup : list nat)
    (* array[name][(slice(None),) + tup] *)
| At (a : NdArray) (tup : list nat).
    (* array[(slice(None),) + tup] *)

(** The four shapes of a field's array. *)
Inductive Array : Type :=
| JaggedArray (offsets : IntArray) (content : NdArray)
| StringArray (offsets : IntArray) (content : Buffer)
| ObjectArray (items : Buffer)
| Flat (a : NdArray).

(** Per-field metadata: [context["is_jagged"]]. *)
Record Context : Type := mkContext { is_jagged : bool }.

Definition ExpressionContext : Type := list (string * Context).

(** The [how] argument of [group]. *)
Inductive How : Type :=
| how_tuple | how_list | how_dict | how_None
| how_str (s : string)
| how_other.

(** What [group] returns when it re-projects. *)
Inductive Aggregate (V : Type) : Type :=
| Tuple (items : list V)
| PyList (items : list V)
| Mapping (d : Dict V)
| Native (v : V)
| PyNone.
Arguments PyNone {V}.

End Data.
Import Data.

(** ** The library classes and the registry *)

Module Registry.

Inductive Class : Type := Library | NumPy | Awkward | Pandas | CuPy.

(** The class attribute [name]; the base class has none. *)
Definition name (c : Class) : Result string :=
  match c with
  | Library => Raise (AttributeError "name")
  | NumPy => Ok "np"
  | Awkward => Ok "ak"
  | Pandas => Ok "pd"
  | CuPy => Ok "cp"
  end.

(** An instance: one of those created once for [_libraries], or any
    other. *)
Inductive Instance : Type :=
| Registered (c : Class)
| Another (c : Class) (id : nat).

Definition class_of (o : Instance) : Class :=
  match o with
  | Registered c => c
  | Another c _ => c
  end.

(** [_libraries], built as the module does: the literal, then the
    assignments, in order. *)
Definition _libraries : Dict Instance :=
  let d := dict_of [("np", Registered NumPy); ("ak", Registered Awkward);
                    ("pd", Registered Pandas); ("cp", Registered CuPy)] in
  let alias (k : string) (canonical : string) (d : Dict Instance) :=
    match dict_get d canonical with
    | Some o => dict_set d k o
    | None => d
    end in
  let d := alias "numpy" "np" d in
  let d := alias "Numpy" "np" d in
  let d := alias "NumPy" "np" d in
  let d := alias "NUMPY" "np" d in
  let d := alias "awkward1" "ak" d in
  let d := alias "Awkward1" "ak" d in
  let d := alias "AWKWARD1" "ak" d in
  let d := alias "awkward" "ak" d in
  let d := alias "Awkward" "ak" d in
  let d := alias "AWKWARD" "ak" d in
  let d := alias "pandas" "pd" d in
  let d := alias "Pandas" "pd" d in
  let d := alias "PANDAS" "pd" d in
  let d := alias "cupy" "cp" d in
  let d := alias "Cupy" "cp" d in
  let d := alias "CuPy" "cp" d in
  let d := alias "CUPY" "cp" d in
  d.

(** The argument of [_regularize_library]: an instance, a class, or a
    string. *)
Inductive LibraryArg : Type :=
| an_instance (o : Instance)
| a_class (c : Class)
| a_string (s : string).

Definition _regularize_library (library : LibraryArg) : Result Instance :=
  match library with
  | an_instance o =>
      n <~ name (class_of o) ;; getitem _libraries n
  | a_class c =>
      n <~ name c ;; getitem _libraries n
  | a_string s =>
      match getitem _libraries s with
      | Raise (KeyError _) =>
          Raise (ValueError (TextRepr "unrecognized library: " s))
      | other => other
      end
  end.

(** [__eq__]. *)
Definition eq_ (self other : Instance) : Result bool :=
  sn <~ name (class_of self) ;;
  on <~ name (class_of other) ;;
  s <~ getitem _libraries sn ;;
  o <~ getitem _libraries on ;;
  Ok (match class_of s, class_of o with
      | Library, Library | NumPy, NumPy | Awkward, Awkward
      | Pandas, Pandas | CuPy, CuPy => true
      | _, _ => false
      end).

(** *** [imported] *)

Definition awkward1_hint : Message := Text
"install the 'awkward1' package with:

    pip install awkward1".

Definition pandas_hint : Message := Text
"install the 'pandas' package with:

    pip install pandas

or

    conda install pandas".

Definition cupy_hint : Message := Text
"install the 'cupy' package with:

    pip install cupy

or

    conda install cupy".

Definition imported (c : Class) : M Module_ :=
  match c with
  | Library => raise (AssertionError (Text ""))
  | NumPy => import_ "numpy"
  | Awkward =>
      try_except_ImportError (import_ "awkward1") (ImportError awkward1_hint)
  | Pandas =>
      try_except_ImportError (import_ "pandas") (ImportError pandas_hint)
  | CuPy =>
      try_except_ImportError (import_ "cupy") (ImportError cupy_hint)
  end.

(** The module an optional dependency lives in. *)
Definition dependency (c : Class) : option (string * Message) :=
  match c with
  | Awkward => Some ("awkward1", awkward1_hint)
  | Pandas => Some ("pandas", pandas_hint)
  | CuPy => Some ("cupy", cupy_hint)
  | _ => None
  end.

(** [n] successive reads of the property, with their results in order. *)
Fixpoint accesses (c : Class) (n : nat) (w : World)
  : list (Result Module_) * World :=
  match n with
  | 0 => ([], w)
  | S n' =>
      let (r, w') := imported c w in
      let (rs, w'') := accesses c n' w' in
      (r :: rs, w'')
  end.

(** The keys of [_libraries], by the class of the instance they lead to. *)
Definition spellings (c : Class) : list string :=
  match c with
  | Library => []
  | NumPy => ["np"; "numpy"; "Numpy"; "NumPy"; "NUMPY"]
  | Awkward => ["ak"; "awkward1"; "Awkward1"; "AWKWARD1";
                "awkward"; "Awkward"; "AWKWARD"]
  | Pandas => ["pd"; "pandas"; "Pandas"; "PANDAS"]
  | CuPy => ["cp"; "cupy"; "Cupy"; "CuPy"; "CUPY"]
  end.

Definition spelled (s : string) : option Class :=
  find (fun c => mem s (spellings c)) [NumPy; Awkward; Pandas; CuPy].

End Registry.
Import Registry.

(** ** Strings: slices and [strip] *)

Module Str.

(** [s[:cut]]. *)
Fixpoint slice_to (cut : nat) (s : string) : string :=
  match cut, s with
  | S c, String a s' => String a (slice_to c s')
  | _, _ => EmptyString
  end.

(** [s[cut:]]. *)
Fixpoint slice_from (cut : nat) (s : string) : string :=
  match cut, s with
  | S c, String _ s' => slice_from c s'
  | _, _ => s
  end.

(** [c in chars]. *)
Fixpoint char_in (c : ascii) (chars : string) : bool :=
  match chars with
  | EmptyString => false
  | String a rest => Ascii.eqb c a || char_in c rest
  end.

(** [s.lstrip(chars)]. *)
Fixpoint lstrip (chars : string) (s : string) : string :=
  match s with
  | EmptyString => EmptyString
  | String a s' => if char_in a chars then lstrip chars s' else s
  end.

(** [s.rstrip(chars)]. *)
Fixpoint rstrip (chars : string) (s : string) : string :=
  match s with
  | EmptyString => EmptyString
  | String a s' =>
      match rstrip chars s' with
      | EmptyString => if char_in a chars then EmptyString else String a EmptyString
      | r => String a r
      end
  end.

(** [s.strip(chars)]. *)
Definition strip (chars : string) (s : string) : string :=
  rstrip chars (lstrip chars s).

(** The separators the zip heuristic strips. *)
Definition separators : string := "_./".

(** The double-quote character, for messages that quote a word. *)
Definition dquote : string := String (ascii_of_nat 34) EmptyString.

End Str.
Import Str.

(** ** The zip heuristic's name arithmetic ([Awkward.group], lines 190-207) *)

Module Prefix.

(** [while cut > 0 and name[:cut] != first[:cut]: cut -= 1]. *)
Fixpoint shrink (name first : string) (cut : nat) : nat :=
  match cut with
  | 0 => 0
  | S c =>
      if String.eqb (slice_to cut name) (slice_to cut first)
      then cut
      else shrink name first c
  end.

(** The body of [for name in jagged], from the current [cut]; the loop is
    left as soon as [cut] is zero. *)
Fixpoint scan (first : string) (jagged : list string) (cut : nat) : nat :=
  match jagged with
  | [] => cut
  | name :: rest =>
      let cut := Nat.min cut (String.length name) in
      let cut := shrink name first cut in
      if Nat.eqb cut 0 then 0 else scan first rest cut
  end.

(** [cut] after the loop; [jagged[0]] raises on an empty list. *)
Definition common_cut (jagged : list string) : Result nat :=
  match jagged with
  | [] => Raise IndexError
  | first :: _ => Ok (scan first jagged (String.length first))
  end.

(** The name of cluster [number] and the keys its members are zipped
    under. *)
Definition cluster_names (number : nat) (jagged : list string)
  : Result (string * list string) :=
  cut <~ common_cut jagged ;;
  if Nat.eqb cut 0 then
    Ok (("jagged" ++ str_of_nat number)%string, jagged)
  else
    match jagged with
    | [] => Raise IndexError
    | first :: _ =>
        Ok (strip separators (slice_to cut first),
            map (fun name => strip separators (slice_from cut name)) jagged)
    end.

End Prefix.
Import Prefix.

(** ** The generic re-projections shared by every [group] *)

Module Projection.

(** [arrays[name] for name, _ in expression_context]. *)
Definition by_context {V} (arrays : Dict V) (expression_context : ExpressionContext)
  : Result (list V) :=
  comprehension (fun nc => getitem arrays (fst nc)) expression_context.

(** [(name, arrays[name]) for name in names]. *)
Definition pairs_by_name {V} (arrays : Dict V) (names : list string)
  : Result (list (string * V)) :=
  comprehension (fun name => v <~ getitem arrays name ;; Ok (name, v)) names.

(** [(name, arrays[name]) for name, _ in expression_context]. *)
Definition pairs_by_context {V} (arrays : Dict V) (expression_context : ExpressionContext)
  : Result (list (string * V)) :=
  comprehension (fun nc => v <~ getitem arrays (fst nc) ;; Ok (fst nc, v))
    expression_context.

(** [Library.group], inherited by [NumPy] and [CuPy]. *)
Definition Library_group {V} (self : Class) (arrays : Dict V)
    (expression_context : ExpressionContext) (how : How) : Result (Aggregate V) :=
  match how with
  | how_tuple => items <~ by_context arrays expression_context ;; Ok (Tuple items)
  | how_list => items <~ by_context arrays expression_context ;; Ok (PyList items)
  | how_dict | how_None =>
      pairs <~ pairs_by_context arrays expression_context ;;
      Ok (Mapping (dict_of pairs))
  | _ =>
      n <~ name self ;;
      Raise (TypeError (Text ("for library " ++ n ++
        ", how must be tuple, list, dict, or None (for dict)")%string))
  end.

End Projection.
Import Projection.

(** ** The Awkward library *)

Module Ak.

Inductive Index : Type :=
| Index32 (a : IntArray)
| IndexU32 (a : IntArray)
| Index64 (a : IntArray).

Definition index_array (i : Index) : IntArray :=
  match i with
  | Index32 a | IndexU32 a | Index64 a => a
  end.

(** awkward1 layouts, and the results of [awkward1.zip].  The high-level
    wrapper [awkward1.Array(layout)] is left out: [array.layout] gives the
    layout back. *)
Inductive Layout : Type :=
| NumpyArray (data : NpValue) (parameters : Dict string)
| ListOffsetArray32 (offsets : Index) (content : Layout) (parameters : Dict string)
| ListOffsetArrayU32 (offsets : Index) (content : Layout) (parameters : Dict string)
| ListOffsetArray64 (offsets : Index) (content : Layout) (parameters : Dict string)
| RecordArray (contents : list Layout) (keys : list string) (length : nat)
| RegularArray (content : Layout) (size : nat)
| Zipped (fields : list (string * Layout)) (depth_limit : option nat).

(** [awkward1.zip(d, depth_limit=...)]: a record with the dictionary's
    entries as fields. *)
Definition zip (d : Dict Layout) (depth_limit : option nat) : Layout :=
  Zipped d depth_limit.

(** The fields of a record with one more attached: a field of that name
    already there gives way, and the new field comes last. *)
Definition attached (fields : Dict Layout) (where_ : string) (what : Layout)
  : Dict Layout :=
  dict_remove fields where_ ++ [(where_, what)].

(** [awkward1.with_field(base, what, where)]: the record with field [where]
    attached; a field of that name already there is replaced. *)
Definition with_field (base what : Layout) (where_ : string) : Result Layout :=
  match base with
  | Zipped fields depth_limit =>
      Ok (Zipped (attached fields where_ what) depth_limit)
  | RecordArray contents keys length =>
      let kept := attached (combine keys contents) where_ what in
      Ok (RecordArray (map snd kept) (map fst kept) length)
  | _ =>
      Raise (ValueError
        (Text "no tuples or records in array; cannot add a new field"))
  end.

(** [awkward1.fields]: the names of the top-level fields. *)
Definition fields (a : Layout) : list string :=
  match a with
  | Zipped fs _ => map fst fs
  | RecordArray _ keys _ => keys
  | _ => []
  end.

(** [a[name]] on a record. *)
Definition field (a : Layout) (name : string) : option Layout :=
  match a with
  | Zipped fs _ => dict_get fs name
  | RecordArray contents keys _ => dict_get (combine keys contents) name
  | _ => None
  end.

(** [layout.offsets]. *)
Definition offsets_of (a : Layout) : Result Index :=
  match a with
  | ListOffsetArray32 o _ _ | ListOffsetArrayU32 o _ _ | ListOffsetArray64 o _ _ => Ok o
  | _ => Raise (AttributeError "offsets")
  end.

(** [repr(dtype)]. *)
Definition dtype_repr (d : DType) : string :=
  match d with
  | int8 => "dtype('int8')" | int16 => "dtype('int16')"
  | int32 => "dtype('int32')" | int64 => "dtype('int64')"
  | uint8 => "dtype('uint8')" | uint16 => "dtype('uint16')"
  | uint32 => "dtype('uint32')" | uint64 => "dtype('uint64')"
  | float32 => "dtype('float32')" | float64 => "dtype('float64')"
  | bool_ => "dtype('bool')"
  end.

(** [Awkward.finalize(array, branch)]; [branch] is not used. *)
Definition finalize (array : Array) : M Layout :=
  awkward1 <- imported Awkward ;;
  match array with
  | JaggedArray array_offsets array_content =>
      let content := NumpyArray (Given array_content) [] in
      let offsets := Index32 array_offsets in
      ret (ListOffsetArray32 offsets content [])
  | StringArray array_offsets array_content =>
      let content :=
        NumpyArray (FromBufferUInt8 array_content) [("__array__", "char")] in
      if issubclass (ia_dtype array_offsets) int32 then
        ret (ListOffsetArray32 (Index32 array_offsets) content
               [("__array__", "string")])
      else if issubclass (ia_dtype array_offsets) uint32 then
        ret (ListOffsetArrayU32 (IndexU32 array_offsets) content
               [("__array__", "string")])
      else if issubclass (ia_dtype array_offsets) int64 then
        ret (ListOffsetArray64 (Index64 array_offsets) content
               [("__array__", "string")])
      else
        raise (AssertionError (Text (dtype_repr (ia_dtype array_offsets))))
  | ObjectArray _ => raise NotImplementedError
  | Flat a =>
      match dtype_names a with
      | Some names =>
          match shape a with
          | [] => raise IndexError
          | length :: shape' =>
              let contents := map (fun n => NumpyArray (FlatField a n) []) names in
              let out := RecordArray contents names length in
              ret (fold_left RegularArray (rev shape') out)
          end
      | None => ret (NumpyArray (Given a) [])
      end
  end.

(** *** [group(how="zip")]: clustering (lines 166-184) *)

Record Partition : Type := mkPartition {
  nonjagged : list string;
  offsets : list Index;
  jaggeds : list (list string)
}.

(** [for o, j in zip(offsets, jaggeds): if array_equal(ao, o): j.append(name); break];
    [None] when the loop ends without [break]. *)
Fixpoint place (ao : Index) (name : string)
    (offsets : list Index) (jaggeds : list (list string))
  : option (list (list string)) :=
  match offsets, jaggeds with
  | o :: offsets', j :: jaggeds' =>
      if array_equal (index_array ao) (index_array o)
      then Some ((j ++ [name]) :: jaggeds')
      else option_map (cons j) (place ao name offsets' jaggeds')
  | _, _ => None
  end.

(** The body of [for name, context in expression_context]. *)
Definition partition_step (arrays : Dict Layout) (st : Partition)
    (nc : string * Context) : Result Partition :=
  let (name, context) := nc in
  array <~ getitem arrays name ;;
  if is_jagged context then
    ao <~ offsets_of array ;;
    if Nat.eqb (List.length (offsets st)) 0 then
      Ok (mkPartition (nonjagged st) (offsets st ++ [ao]) (jaggeds st ++ [[name]]))
    else
      match place ao name (offsets st) (jaggeds st) with
      | Some jaggeds' => Ok (mkPartition (nonjagged st) (offsets st) jaggeds')
      | None =>
          Ok (mkPartition (nonjagged st) (offsets st ++ [ao]) (jaggeds st ++ [[name]]))
      end
  else
    Ok (mkPartition (nonjagged st ++ [name]) (offsets st) (jaggeds st)).

Definition partition (arrays : Dict Layout) (expression_context : ExpressionContext)
  : Result Partition :=
  for_each (partition_step arrays) expression_context (mkPartition [] [] []).

(** *** [group(how="zip")]: naming and attaching (lines 185-213) *)

(** [common] and [subarray] of one cluster. *)
Definition cluster_record (arrays : Dict Layout) (number : nat) (jagged : list string)
  : Result (string * Layout) :=
  cut <~ common_cut jagged ;;
  if Nat.eqb cut 0 then
    let common := ("jagged" ++ str_of_nat number)%string in
    pairs <~ pairs_by_name arrays jagged ;;
    Ok (common, zip (dict_of pairs) None)
  else
    match jagged with
    | [] => Raise IndexError
    | first :: _ =>
        let common := strip separators (slice_to cut first) in
        pairs <~ comprehension
                   (fun name => v <~ getitem arrays name ;;
                                Ok (strip separators (slice_from cut name), v))
                   jagged ;;
        Ok (common, zip (dict_of pairs) None)
    end.

(** The body of [for number, jagged in enumerate(jaggeds)]. *)
Definition attach (arrays : Dict Layout) (out : option Layout)
    (nj : nat * list string) : Result (option Layout) :=
  let (number, jagged) := nj in
  cs <~ cluster_record arrays number jagged ;;
  let (common, subarray) := cs in
  match out with
  | None => Ok (Some (zip [(common, subarray)] (Some 1)))
  | Some o =>
      o' <~ for_each (fun o _ => with_field o subarray common) jagged o ;;
      Ok (Some o')
  end.

Definition group_zip (arrays : Dict Layout) (expression_context : ExpressionContext)
  : Result (option Layout) :=
  p <~ partition arrays expression_context ;;
  out <~ (if negb (Nat.eqb (List.length (nonjagged p)) 0) then
            pairs <~ pairs_by_name arrays (nonjagged p) ;;
            Ok (Some (zip (dict_of pairs) (Some 1)))
          else Ok None) ;;
  for_each (attach arrays) (enumerate (jaggeds p)) out.

(** The top-level fields of what the loop has built so far. *)
Definition top_fields (out : option Layout) : Dict Layout :=
  match out with
  | Some (Zipped fs _) => fs
  | _ => []
  end.

Definition how_message (n : string) : Message :=
  Text ("for library " ++ n ++ ", how must be tuple, list, dict, " ++ dquote
        ++ "zip" ++ dquote ++ " for a record array with jagged arrays zipped, "
        ++ "if possible, or None, for an unzipped record array")%string.

(** [Awkward.group(arrays, expression_context, how)]. *)
Definition group (arrays : Dict Layout) (expression_context : ExpressionContext)
    (how : How) : M (Aggregate Layout) :=
  awkward1 <- imported Awkward ;;
  lift
    match how with
    | how_tuple => items <~ by_context arrays expression_context ;; Ok (Tuple items)
    | how_list => items <~ by_context arrays expression_context ;; Ok (PyList items)
    | how_dict =>
        pairs <~ pairs_by_context arrays expression_context ;;
        Ok (Mapping (dict_of pairs))
    | how_None =>
        pairs <~ pairs_by_context arrays expression_context ;;
        Ok (Native (zip (dict_of pairs) (Some 1)))
    | how_str s =>
        if String.eqb s "zip" then
          out <~ group_zip arrays expression_context ;;
          Ok match out with
             | Some o => Native o
             | None => PyNone
             end
        else Raise (TypeError (how_message "ak"))
    | how_other => Raise (TypeError (how_message "ak"))
    end.

End Ak.

(** ** The Pandas library *)

Module Pd.

Inductive PdIndex : Type :=
| RangeIndex
| EntrySubentry (offsets : IntArray).
    (* MultiIndex.from_arrays(array.parents_localindex(),
                              names=["entry", "subentry"]) *)

Inductive SeriesValues : Type :=
| Content (a : NdArray)     (* array.content of a jagged array *)
| Objects (a : Array)       (* one object per row of a string or object array *)
| Values (a : NdArray).

(** [pandas.Series(values, index=...)] and
    [pandas.DataFrame(data, columns=...)]. *)
Inductive PdObject : Type :=
| Series (values : SeriesValues) (index : PdIndex)
| DataFrame (data : Dict NpValue) (columns : list string).

(** [range(d)]. *)
Definition range (d : nat) : list nat := seq 0 d.

(** [itertools.product] of the pools: every pool extends every partial tuple, the
    last pool varying fastest. *)
Definition product (pools : list (list nat)) : list (list nat) :=
  fold_left
    (fun result pool => flat_map (fun x => map (fun y => x ++ [y]) pool) result)
    pools [[]].

(** The indices of [tup], each in square brackets, joined. *)
Definition brackets (tup : list nat) : string :=
  String.concat "" (map (fun x => ("[" ++ str_of_nat x ++ "]")%string) tup).

(** The state of the column loops: [names] and [arrays]. *)
Definition Columns : Type := (list string * Dict NpValue)%type.

Definition add_column (st : Columns) (name : string) (v : NpValue) : Columns :=
  (fst st ++ [name], dict_set (snd st) name v).

(** [Pandas.finalize(array, branch)]; [branch] is not used. *)
Definition finalize (array : Array) : M PdObject :=
  pandas <- imported Pandas ;;
  match array with
  | JaggedArray array_offsets array_content =>
      ret (Series (Content array_content) (EntrySubentry array_offsets))
  | StringArray _ _ => ret (Series (Objects array) RangeIndex)
  | ObjectArray _ => ret (Series (Objects array) RangeIndex)
  | Flat a =>
      let tuples := product (map range (tl (shape a))) in
      match dtype_names a with
      | Some dnames =>
          if negb (Nat.eqb (List.length (shape a)) 1) then
            let st :=
              fold_left
                (fun st n =>
                   fold_left
                     (fun st tup =>
                        add_column st (":" ++ n ++ brackets tup)%string
                          (FieldAt a n tup))
                     tuples st)
                dnames ([], []) in
            ret (DataFrame (snd st) (fst st))
          else
            let names := map (fun x => (":" ++ x)%string) dnames in
            let arrays :=
              dict_of (map (fun x => ((":" ++ x)%string, Field a x)) dnames) in
            ret (DataFrame arrays names)
      | None =>
          if negb (Nat.eqb (List.length (shape a)) 1) then
            let st :=
              fold_left
                (fun st tup => add_column st (brackets tup) (At a tup))
                tuples ([], []) in
            ret (DataFrame (snd st) (fst st))
          else
            ret (Series (Values a) RangeIndex)
      end
  end.

Definition how_message (n : string) : Message :=
  Text ("for library " ++ n ++ ", how must be tuple, list, dict, str (for "
        ++ "pandas.merge's 'how' parameter, or None (for one or more"
        ++ "DataFrames without merging)")%string.

Section Group.

(** The alignment and merge of series and tables (lines 316-399), which no
    property below depends on, is taken as given. *)
Variable merged : Dict PdObject -> list string -> How -> M (Aggregate PdObject).

(** [Pandas.group(arrays, expression_context, how)]. *)
Definition group (arrays : Dict PdObject) (expression_context : ExpressionContext)
    (how : How) : M (Aggregate PdObject) :=
  pandas <- imported Pandas ;;
  let names := map fst expression_context in
  match how with
  | how_tuple =>
      lift (items <~ comprehension (getitem arrays) names ;; Ok (Tuple items))
  | how_list =>
      lift (items <~ comprehension (getitem arrays) names ;; Ok (PyList items))
  | how_dict =>
      lift (pairs <~ pairs_by_name arrays names ;; Ok (Mapping (dict_of pairs)))
  | how_str _ | how_None => merged arrays names how
  | how_other => raise (TypeError (how_message "pd"))
  end.

End Group.

End Pd.

(** ** The vocabulary of the properties

    First the names as the specification words them, for comparison with
    the code; then the notions the properties are stated with. *)

Module Spec.

(** The longest common prefix of two strings. *)
Fixpoint common_prefix (a b : string) : string :=
  match a, b with
  | String x a', String y b' =>
      if Ascii.eqb x y then String x (common_prefix a' b') else EmptyString
  | _, _ => EmptyString
  end.

(** [q] is a leading part of [s]. *)
Definition is_prefix (q s : string) : Prop := exists t, s = (q ++ t)%string.

(** The longest common prefix of all the names of a cluster. *)
Definition longest_common_prefix (names : list string) : string :=
  match names with
  | [] => EmptyString
  | first :: rest => fold_left common_prefix rest first
  end.

(** The cluster's name and its members' keys as the specification words
    them: the prefix loses its trailing separators; when nothing is left the
    cluster is [jagged<number>] and keeps the member names; otherwise every
    member loses the common prefix. *)
Definition cluster_names (number : nat) (names : list string)
  : string * list string :=
  let p := longest_common_prefix names in
  let common := rstrip separators p in
  if Nat.eqb (String.length common) 0 then
    (("jagged" ++ str_of_nat number)%string, names)
  else
    (common, map (slice_from (String.length p)) names).

(** The column names of a structured flat array on the Tabular backend as
    the specification words them: the subfield name, then one bracketed
    index per trailing dimension. *)
Definition column_names (subfields : list string) (trailing : list nat)
  : list string :=
  flat_map
    (fun n => map (fun tup => (n ++ Pd.brackets tup)%string)
                  (Pd.product (map Pd.range trailing)))
    subfields.

(** The case variants of a word: every letter in either case. *)
Definition same_letter (a b : ascii) : bool :=
  let lower (c : ascii) :=
    let n := nat_of_ascii c in
    if Nat.leb 65 n && Nat.leb n 90 then ascii_of_nat (n + 32) else c in
  Ascii.eqb (lower a) (lower b).

Fixpoint case_variant (s word : string) : bool :=
  match s, word with
  | EmptyString, EmptyString => true
  | String a s', String b word' => same_letter a b && case_variant s' word'
  | _, _ => false
  end.

(** The identifiers the specification accepts for each library. *)
Definition accepted (s : string) : option Class :=
  if case_variant s "np" || case_variant s "numpy" then Some NumPy
  else if case_variant s "ak" || case_variant s "awkward"
          || case_variant s "awkward1" then Some Awkward
  else if case_variant s "pd" || case_variant s "pandas" then Some Pandas
  else if case_variant s "cp" || case_variant s "cupy" then Some CuPy
  else None.

(** Whether a name consists of separators only (as the empty name does). *)
Fixpoint all_separators (s : string) : bool :=
  match s with
  | EmptyString => true
  | String a s' => char_in a separators && all_separators s'
  end.

(** The names flagged as jagged, in the order of the expression context. *)
Definition jagged_names (expression_context : ExpressionContext) : list string :=
  map fst (filter (fun nc => is_jagged (snd nc)) expression_context).

Definition nonjagged_names (expression_context : ExpressionContext) : list string :=
  map fst (filter (fun nc => negb (is_jagged (snd nc))) expression_context).

Definition same_offsets (a b : Ak.Index) : bool :=
  array_equal (Ak.index_array a) (Ak.index_array b).

(** The distinct offsets of a list, each at its first occurrence. *)
Fixpoint first_seen (os : list Ak.Index) : list Ak.Index :=
  match os with
  | [] => []
  | o :: rest => o :: filter (fun o' => negb (same_offsets o' o)) (first_seen rest)
  end.

(** Pairwise different offsets: an element matches none of those after
    it. *)
Inductive distinct : list Ak.Index -> Prop :=
| distinct_nil : distinct []
| distinct_cons o os :
    existsb (same_offsets o) os = false -> distinct os -> distinct (o :: os).

(** The members of the cluster with offsets [o]: the names whose offsets
    are the same, in order. *)
Definition members (off : string -> Ak.Index) (names : list string) (o : Ak.Index)
  : list string :=
  filter (fun n => same_offsets (off n) o) names.

(** The arrays hold every field, and the fields flagged as jagged have
    offsets, named by [off]. *)
Definition well_formed (arrays : Dict Ak.Layout) (off : string -> Ak.Index)
    (ctx : ExpressionContext) : Prop :=
  forall name c, In (name, c) ctx ->
    exists array, dict_get arrays name = Some array
                  /\ (is_jagged c = true -> Ak.offsets_of array = Ok (off name)).

(** The scenario of the specification: two jagged muon fields with the
    same offsets and a flat event number. *)
Definition muon_pt : Ak.Layout :=
  Ak.ListOffsetArray32 (Ak.Index32 (mkIntArray int32 [0; 2; 3]%Z))
    (Ak.NumpyArray (Given (mkNdArray None [3] (Buf 0))) []) [].

Definition muon_eta : Ak.Layout :=
  Ak.ListOffsetArray32 (Ak.Index32 (mkIntArray int32 [0; 2; 3]%Z))
    (Ak.NumpyArray (Given (mkNdArray None [3] (Buf 1))) []) [].

Definition event_id : Ak.Layout :=
  Ak.NumpyArray (Given (mkNdArray None [2] (Buf 2))) [].

Definition muon_arrays : Dict Ak.Layout :=
  [("muon_pt", muon_pt); ("muon_eta", muon_eta); ("event_id", event_id)].

Definition muon_context : ExpressionContext :=
  [("muon_pt", mkContext true); ("muon_eta", mkContext true);
   ("event_id", mkContext false)].

(** What the attaching loop holds: nothing yet, or a record zipped at
    depth one. *)
Definition shaped (out : option Ak.Layout) : Prop :=
  out = None \/ exists fs, out = Some (Ak.Zipped fs (Some 1)).

(** Every name of the expression context has its array, with the given
    values. *)
Definition present {V} (arrays : Dict V) (expression_context : ExpressionContext)
    (items : list V) : Prop :=
  Forall2 (fun nc v => dict_get arrays (fst nc) = Some v) expression_context items.

End Spec.

(** ** The CuPy library *)

Module Cp.

(** A buffer made by [empty(shape, dtype)]. *)
Inductive EmptyBuffer : Type :=
| numpy_empty (shape : list nat) (dtype : DType)
| cupy_empty (shape : list nat) (dtype : DType).

(** [Library.empty], inherited by [NumPy], [Awkward] and [Pandas]. *)
Definition Library_empty (shape : list nat) (dtype : DType) : EmptyBuffer :=
  numpy_empty shape dtype.

(** [CuPy.empty]. *)
Definition empty (shape : list nat) (dtype : DType) : M EmptyBuffer :=
  cupy <- imported CuPy ;;
  ret (cupy_empty shape dtype).

Section Resident.

(** [isinstance(array, cupy.ndarray)]. *)
Variable is_cupy_ndarray : NdArray -> bool.

(** [CuPy.finalize(array, branch)]; [branch] is not used. *)
Definition finalize (array : Array) : M NdArray :=
  cupy <- imported CuPy ;;
  match array with
  | JaggedArray _ _ | StringArray _ _ | ObjectArray _ =>
      raise (TypeError (Text "jagged arrays and objects are not supported by CuPy"))
  | Flat a =>
      if is_cupy_ndarray a then ret a else raise (AssertionError (Text ""))
  end.

End Resident.

End Cp.

(** ** [Pandas._only_series] and the grouping of columns by index *)

Module Columns.

(** A one-dimensional column: a series as it was given, or [df[subname]] of
    a table (the tables here have the default index). *)
Inductive Column : Type :=
| OfSeries (values : Pd.SeriesValues) (index : Pd.PdIndex)
| OfFrame (data : Dict NpValue) (columns : list string) (subname : string).

(** [column.index]. *)
Definition index_of (c : Column) : Pd.PdIndex :=
  match c with
  | OfSeries _ i => i
  | OfFrame _ _ _ => Pd.RangeIndex
  end.

Definition is_RangeIndex (i : Pd.PdIndex) : bool :=
  match i with
  | Pd.RangeIndex => true
  | Pd.EntrySubentry _ => false
  end.

Definition is_MultiIndex (i : Pd.PdIndex) : bool :=
  match i with
  | Pd.RangeIndex => false
  | Pd.EntrySubentry _ => true
  end.

(** The state of [_only_series]: [arrays] and [names]. *)
Definition Flattened : Type := (Dict Column * list string)%type.

(** The body of [for name in original_names]. *)
Definition only_series_step (original_arrays : Dict Pd.PdObject) (st : Flattened)
    (name : string) : Result Flattened :=
  o <~ getitem original_arrays name ;;
  match o with
  | Pd.Series values index =>
      Ok (dict_set (fst st) name (OfSeries values index), snd st ++ [name])
  | Pd.DataFrame data columns =>
      Ok (fold_left
            (fun st subname =>
               let path := (name ++ subname)%string in
               (dict_set (fst st) path (OfFrame data columns subname),
                snd st ++ [path]))
            columns st)
  end.

(** [Pandas._only_series(original_arrays, original_names)]. *)
Definition _only_series (original_arrays : Dict Pd.PdObject)
    (original_names : list string) : M Flattened :=
  pandas <- imported Pandas ;;
  lift (for_each (only_series_step original_arrays) original_names ([], [])).

(** [all(isinstance(x.index, pandas.RangeIndex) for x in arrays.values())]
    (line 317). *)
Definition all_RangeIndex (arrays : Dict Column) : bool :=
  forallb (fun x => is_RangeIndex (index_of x)) (values arrays).

Section Grouping.

(** [numpy.array_equal] on two indexes. *)
Variable index_equal : Pd.PdIndex -> Pd.PdIndex -> bool.

(** [for index, group in zip(indexes, groups): if array_equal(ai, index):
    group.append(name); break]; [None] when the loop ends without
    [break]. *)
Fixpoint place (ai : Pd.PdIndex) (name : string)
    (indexes : list Pd.PdIndex) (groups : list (list string))
  : option (list (list string)) :=
  match indexes, groups with
  | index :: indexes', group :: groups' =>
      if index_equal ai index
      then Some ((group ++ [name]) :: groups')
      else option_map (cons group) (place ai name indexes' groups')
  | _, _ => None
  end.

(** The body of [for name in names] (lines 321-330). *)
Definition group_step (arrays : Dict Column)
    (st : list Pd.PdIndex * list (list string)) (name : string)
  : Result (list Pd.PdIndex * list (list string)) :=
  array <~ getitem arrays name ;;
  if is_MultiIndex (index_of array) then
    match place (index_of array) name (fst st) (snd st) with
    | Some groups' => Ok (fst st, groups')
    | None => Ok (fst st ++ [index_of array], snd st ++ [[name]])
    end
  else Ok st.

(** [indexes] and [groups] after the loop. *)
Definition index_groups (arrays : Dict Column) (names : list string)
  : Result (list Pd.PdIndex * list (list string)) :=
  for_each (group_step arrays) names ([], []).

End Grouping.

(** [flat_names] (lines 376-380). *)
Definition flat_names (arrays : Dict Column) (names : list string)
  : Result (list string) :=
  for_each
    (fun acc name =>
       array <~ getitem arrays name ;;
       Ok (if is_RangeIndex (index_of array) then acc ++ [name] else acc))
    names [].

End Columns.

(** ** More vocabulary for the properties *)

Module Shape.

(** The sizes of the regular dimensions around a layout, outermost first,
    and the layout inside them. *)
Fixpoint regular_sizes (l : Ak.Layout) : list nat :=
  match l with
  | Ak.RegularArray content size => size :: regular_sizes content
  | _ => []
  end.

Fixpoint regular_core (l : Ak.Layout) : Ak.Layout :=
  match l with
  | Ak.RegularArray content _ => regular_core content
  | other => other
  end.

(** The first name that has no array. *)
Fixpoint first_missing {V} (arrays : Dict V) (names : list string) : option string :=
  match names with
  | [] => None
  | name :: rest =>
      match dict_get arrays name with
      | Some _ => first_missing arrays rest
      | None => Some name
      end
  end.

(** The names [_only_series] gives for one original name. *)
Definition expand (original_arrays : Dict Pd.PdObject) (name : string) : list string :=
  match dict_get original_arrays name with
  | Some (Pd.DataFrame _ columns) => map (fun subname => (name ++ subname)%string) columns
  | _ => [name]
  end.

(** No separator at either end. *)
Definition trimmed (s : string) : Prop :=
  lstrip separators s = s /\ rstrip separators s = s.

(** [part] occurs in [s] as a contiguous piece. *)
Definition is_infix (part s : string) : Prop :=
  exists before after, s = (before ++ part ++ after)%string.

(** What the clustering loop keeps: as many offsets as clusters, and no
    empty cluster. *)
Definition partition_sound (st : Ak.Partition) : Prop :=
  List.length (Ak.offsets st) = List.length (Ak.jaggeds st)
  /\ Forall (fun j => j <> []) (Ak.jaggeds st).

(** Whether the column of that name has a two-level index. *)
Definition ragged (arrays : Dict Columns.Column) (name : string) : bool :=
  match dict_get arrays name with
  | Some col => Columns.is_MultiIndex (Columns.index_of col)
  | None => false
  end.

Definition class_eqb (a b : Class) : bool :=
  match a, b with
  | Library, Library | NumPy, NumPy | Awkward, Awkward
  | Pandas, Pandas | CuPy, CuPy => true
  | _, _ => false
  end.

End Shape.

(** * Properties *)

Unset Implicit Arguments.

(** ** Dictionaries and comprehensions *)

Lemma keys_dict_set {V} (d : Dict V) k v k0 :
  In k0 (keys (dict_set d k v)) <-> k0 = k \/ In k0 (keys d).
Proof.
  induction d as [|[k' v'] d IH]; simpl.
  - intuition.
  - destruct (String.eqb_spec k k') as [->|Hne]; simpl.
    + intuition.
    + rewrite IH. intuition.
Qed.

Lemma keys_fold_dict_set {V} (pairs : list (string * V)) (d : Dict V) k0 :
  In k0 (keys (fold_left (fun d kv => dict_set d (fst kv) (snd kv)) pairs d))
  <-> In k0 (keys d) \/ In k0 (map fst pairs).
Proof.
  revert d. induction pairs as [|[k v] pairs IH]; intros d; simpl.
  - intuition.
  - rewrite IH, keys_dict_set. simpl. intuition.
Qed.

Lemma keys_dict_of {V} (pairs : list (string * V)) k0 :
  In k0 (keys (dict_of pairs)) <-> In k0 (map fst pairs).
Proof.
  unfold dict_of. rewrite keys_fold_dict_set. simpl. intuition.
Qed.

Lemma by_context_present {V} (arrays : Dict V) ctx items :
  Spec.present arrays ctx items -> by_context arrays ctx = Ok items.
Proof.
  unfold Spec.present, by_context.
  induction 1 as [|nc v ctx items Hv _ IH]; simpl; [reflexivity|].
  unfold getitem in *. rewrite Hv. simpl. rewrite IH. reflexivity.
Qed.

Lemma pairs_by_context_present {V} (arrays : Dict V) ctx items :
  Spec.present arrays ctx items ->
  pairs_by_context arrays ctx = Ok (combine (map fst ctx) items).
Proof.
  unfold Spec.present, pairs_by_context.
  induction 1 as [|nc v ctx items Hv _ IH]; simpl; [reflexivity|].
  unfold getitem in *. rewrite Hv. simpl. rewrite IH. reflexivity.
Qed.

Lemma names_present {V} (arrays : Dict V) ctx items :
  Spec.present arrays ctx items ->
  comprehension (getitem arrays) (map fst ctx) = Ok items
  /\ pairs_by_name arrays (map fst ctx) = Ok (combine (map fst ctx) items).
Proof.
  unfold Spec.present, pairs_by_name.
  induction 1 as [|nc v ctx items Hv _ [IH1 IH2]]; simpl; [split; reflexivity|].
  unfold getitem in *. rewrite Hv. simpl. rewrite IH1, IH2. split; reflexivity.
Qed.

Lemma fst_combine_present {V} (arrays : Dict V) ctx items :
  Spec.present arrays ctx items ->
  map fst (combine (map fst ctx) items) = map fst ctx.
Proof.
  unfold Spec.present.
  induction 1 as [|nc v ctx items _ _ IH]; simpl; [reflexivity|].
  now rewrite IH.
Qed.

(** ** The import machinery *)

Lemma import_available name w :
  available name w = true ->
  exists w', import_ name w = (Ok (Mod name), w').
Proof.
  unfold available, import_. intros H.
  destruct (mem name (sys_modules w)); [eauto|].
  simpl in H. rewrite H. eauto.
Qed.

Lemma imported_available c module hint w :
  dependency c = Some (module, hint) ->
  available module w = true ->
  exists w', imported c w = (Ok (Mod module), w').
Proof.
  intros Hd Ha.
  destruct c; simpl in Hd; inversion Hd; subst; simpl;
    unfold try_except_ImportError;
    destruct (import_available _ _ Ha) as [w' ->]; eauto.
Qed.

(** Runs the [imported] read at the head of a method, given that the
    dependency of class [c] is available. *)
Ltac imported_ok c Ha :=
  let w' := fresh "w'" in
  unfold bind, lift;
  destruct (imported_available c _ _ _ eq_refl Ha) as [w' ->].

(** ** The registry *)

(** Every key of the registry is a case variant of a canonical name or of an
    alias. *)
Lemma spellings_accepted c s :
  In s (spellings c) -> Spec.accepted s = Some c.
Proof.
  destruct c; simpl; intros H;
    repeat (destruct H as [<-|H]; [reflexivity|]); contradiction.
Qed.

(** C7, as stated, fails: [NP] is a case variant of the canonical name [np],
    and resolving it raises [ValueError]. *)
Lemma upper_case_canonical_name_refused :
  Spec.accepted "NP" = Some NumPy
  /\ ~ (forall c, Spec.accepted "NP" = Some c ->
                  _regularize_library (a_string "NP") = Ok (Registered c)).
Proof.
  split; [reflexivity|].
  intros H. specialize (H NumPy eq_refl). discriminate H.
Qed.

(** C7, amended: a string resolves exactly when it is one of the spellings
    the registry holds (the lower-case canonical names, and the lower-case,
    capitalised and upper-case aliases, with [NumPy] and [CuPy]); all the
    spellings of a library lead to its one registered instance; every other
    string, other case variants included, raises [ValueError] with the
    string in its message. *)
Theorem regularize_library_string (s : string) :
  _regularize_library (a_string s) =
    match spelled s with
    | Some c => Ok (Registered c)
    | None => Raise (ValueError (TextRepr "unrecognized library: " s))
    end.
Proof.
  unfold _regularize_library, getitem.
  change _libraries with (ltac:(let d := eval vm_compute in _libraries in exact d)).
  unfold spelled, mem, spellings, find, existsb, dict_get.
  repeat match goal with
         | |- context [String.eqb s ?k] =>
             destruct (String.eqb_spec s k) as [->|?]; [reflexivity|]
         end.
  reflexivity.
Qed.

(** ** [imported] *)

(** C3, as stated, fails: with awkward1 missing, the second read of
    [imported] raises the same error as the first, and runs the import
    machinery again. *)
Lemma failed_import_acquired_again :
  let w0 := mkWorld [] ["numpy"] 0 in
  let w1 := snd (imported Awkward w0) in
  let w2 := snd (imported Awkward w1) in
  fst (imported Awkward w0) = Raise (ImportError awkward1_hint)
  /\ fst (imported Awkward w1) = Raise (ImportError awkward1_hint)
  /\ acquisitions w1 = 1
  /\ acquisitions w2 <> acquisitions w1.
Proof.
  simpl. repeat split; try reflexivity. discriminate.
Qed.

Lemma imported_unloaded c module hint w :
  dependency c = Some (module, hint) ->
  mem module (sys_modules w) = false ->
  imported c w =
    if mem module (installed w)
    then (Ok (Mod module),
          mkWorld (installed w) (module :: sys_modules w) (S (acquisitions w)))
    else (Raise (ImportError hint),
          mkWorld (installed w) (sys_modules w) (S (acquisitions w))).
Proof.
  intros Hd Hl.
  destruct c; simpl in Hd; inversion Hd; subst; simpl;
    unfold try_except_ImportError, import_; rewrite Hl;
    destruct (mem _ (installed w)); reflexivity.
Qed.

Lemma imported_loaded c module hint w :
  dependency c = Some (module, hint) ->
  mem module (sys_modules w) = true ->
  imported c w = (Ok (Mod module), w).
Proof.
  intros Hd Hl.
  destruct c; simpl in Hd; inversion Hd; subst; simpl;
    unfold try_except_ImportError, import_; rewrite Hl; reflexivity.
Qed.

Lemma accesses_loaded c module hint n w :
  dependency c = Some (module, hint) ->
  mem module (sys_modules w) = true ->
  accesses c n w = (repeat (Ok (Mod module)) n, w).
Proof.
  intros Hd Hl. induction n as [|n IH]; simpl; [reflexivity|].
  rewrite (imported_loaded _ _ _ _ Hd Hl), IH. reflexivity.
Qed.

Lemma accesses_missing c module hint n : forall w,
  dependency c = Some (module, hint) ->
  mem module (sys_modules w) = false ->
  mem module (installed w) = false ->
  accesses c n w =
    (repeat (Raise (ImportError hint)) n,
     mkWorld (installed w) (sys_modules w) (n + acquisitions w)).
Proof.
  induction n as [|n IH]; intros w Hd Hl Hi; simpl.
  - destruct w; reflexivity.
  - rewrite (imported_unloaded _ _ _ _ Hd Hl), Hi.
    rewrite IH by assumption. simpl.
    repeat f_equal. lia.
Qed.

(** C3, amended: for a library with an optional dependency that is not
    loaded yet, [n+1] reads of [imported] either all raise [ImportError] with
    the same hint, each read running the import machinery once more (the
    failure is not kept), or, when the dependency is installed, all return
    the module, the machinery having run once (the loaded module is kept by
    the interpreter). *)
Theorem imported_repeated c module hint w n :
  dependency c = Some (module, hint) ->
  mem module (sys_modules w) = false ->
  accesses c (S n) w =
    if mem module (installed w)
    then (repeat (Ok (Mod module)) (S n),
          mkWorld (installed w) (module :: sys_modules w) (S (acquisitions w)))
    else (repeat (Raise (ImportError hint)) (S n),
          mkWorld (installed w) (sys_modules w) (S n + acquisitions w)).
Proof.
  intros Hd Hl.
  destruct (mem module (installed w)) eqn:Hi.
  - cbn [accesses]. rewrite (imported_unloaded _ _ _ _ Hd Hl), Hi.
    erewrite (accesses_loaded c module hint); [reflexivity|exact Hd|].
    simpl. unfold mem. simpl. now rewrite String.eqb_refl.
  - apply (accesses_missing c module hint); assumption.
Qed.

Lemma imported_repeated_witness :
  accesses Awkward 3 (mkWorld [] ["numpy"] 0) =
    (repeat (Raise (ImportError awkward1_hint)) 3, mkWorld [] ["numpy"] 3).
Proof.
  apply (imported_repeated Awkward "awkward1" awkward1_hint
           (mkWorld [] ["numpy"] 0) 2); reflexivity.
Defined.

(** ** [Awkward.finalize]: the width of the offsets *)


(** C2 (the code departs from it): for a jagged array the offsets are put
    into the 32-bit index and the 32-bit list container whatever their
    width; no width is refused. *)
Theorem finalize_jagged_ignores_width offs content w :
  available "awkward1" w = true ->
  fst (Ak.finalize (JaggedArray offs content) w) =
    Ok (Ak.ListOffsetArray32 (Ak.Index32 offs)
          (Ak.NumpyArray (Given content) []) []).
Proof.
  intros Ha. unfold Ak.finalize. imported_ok Awkward Ha.
  reflexivity.
Qed.

Lemma finalize_jagged_ignores_width_witness :
  fst (Ak.finalize
         (JaggedArray (mkIntArray int64 [0; 2; 3]%Z) (mkNdArray None [3] (Buf 0)))
         (mkWorld ["awkward1"] ["numpy"] 0)) =
    Ok (Ak.ListOffsetArray32 (Ak.Index32 (mkIntArray int64 [0; 2; 3]%Z))
          (Ak.NumpyArray (Given (mkNdArray None [3] (Buf 0))) []) []).
Proof.
  apply (finalize_jagged_ignores_width (mkIntArray int64 [0; 2; 3]%Z)
           (mkNdArray None [3] (Buf 0)) (mkWorld ["awkward1"] ["numpy"] 0)).
  reflexivity.
Defined.

(** ** [group]: tuple, list and mapping *)

(** C8: with every field of the expression context among the arrays (and
    the library's dependency at hand), [how=tuple] and [how=list] give the
    fields' arrays in the order of the expression context, and [how=dict]
    gives a mapping whose keys are exactly the names of the expression
    context; this holds for [Library.group] (NumPy, CuPy), [Awkward.group]
    and [Pandas.group]. *)
Theorem group_projections
    (V : Type) (self : Class) (w : World)
    (merged : Dict Pd.PdObject -> list string -> How -> M (Aggregate Pd.PdObject))
    (ctx : ExpressionContext)
    (arrays : Dict V) (items : list V)
    (ak_arrays : Dict Ak.Layout) (ak_items : list Ak.Layout)
    (pd_arrays : Dict Pd.PdObject) (pd_items : list Pd.PdObject) :
  available "awkward1" w = true ->
  available "pandas" w = true ->
  Spec.present arrays ctx items ->
  Spec.present ak_arrays ctx ak_items ->
  Spec.present pd_arrays ctx pd_items ->
  (Library_group self arrays ctx how_tuple = Ok (Tuple items)
   /\ Library_group self arrays ctx how_list = Ok (PyList items)
   /\ exists d, Library_group self arrays ctx how_dict = Ok (Mapping d)
                /\ forall k, In k (keys d) <-> In k (map fst ctx))
  /\ (fst (Ak.group ak_arrays ctx how_tuple w) = Ok (Tuple ak_items)
      /\ fst (Ak.group ak_arrays ctx how_list w) = Ok (PyList ak_items)
      /\ exists d, fst (Ak.group ak_arrays ctx how_dict w) = Ok (Mapping d)
                   /\ forall k, In k (keys d) <-> In k (map fst ctx))
  /\ (fst (Pd.group merged pd_arrays ctx how_tuple w) = Ok (Tuple pd_items)
      /\ fst (Pd.group merged pd_arrays ctx how_list w) = Ok (PyList pd_items)
      /\ exists d, fst (Pd.group merged pd_arrays ctx how_dict w) = Ok (Mapping d)
                   /\ forall k, In k (keys d) <-> In k (map fst ctx)).
Proof.
  intros Hak Hpd H Hk Hp.
  split; [|split].
  - unfold Library_group.
    rewrite (by_context_present _ _ _ H), (pairs_by_context_present _ _ _ H).
    simpl. repeat split. eexists; split; [reflexivity|].
    intros k. rewrite keys_dict_of, (fst_combine_present _ _ _ H). reflexivity.
  - unfold Ak.group. imported_ok Awkward Hak.
    rewrite (by_context_present _ _ _ Hk), (pairs_by_context_present _ _ _ Hk).
    simpl. repeat split. eexists; split; [reflexivity|].
    intros k. rewrite keys_dict_of, (fst_combine_present _ _ _ Hk). reflexivity.
  - unfold Pd.group. imported_ok Pandas Hpd.
    destruct (names_present _ _ _ Hp) as [-> ->].
    simpl. repeat split. eexists; split; [reflexivity|].
    intros k. rewrite keys_dict_of, (fst_combine_present _ _ _ Hp). reflexivity.
Qed.

Lemma group_projections_witness :
  let w := mkWorld ["awkward1"; "pandas"] ["numpy"] 0 in
  let ctx := [("pt", mkContext true); ("id", mkContext false)] in
  let ak_pt := Ak.ListOffsetArray32 (Ak.Index32 (mkIntArray int32 [0; 2; 3]%Z))
                 (Ak.NumpyArray (Given (mkNdArray None [3] (Buf 0))) []) [] in
  let ak_id := Ak.NumpyArray (Given (mkNdArray None [2] (Buf 1))) [] in
  let pd_pt := Pd.Series (Pd.Content (mkNdArray None [3] (Buf 0)))
                 (Pd.EntrySubentry (mkIntArray int32 [0; 2; 3]%Z)) in
  let pd_id := Pd.Series (Pd.Values (mkNdArray None [2] (Buf 1))) Pd.RangeIndex in
  let merged := fun (_ : Dict Pd.PdObject) (_ : list string) (_ : How) =>
                  raise (A := Aggregate Pd.PdObject) NotImplementedError in
  (Library_group NumPy [("id", 7); ("pt", 5)] ctx how_tuple = Ok (Tuple [5; 7])
   /\ Library_group NumPy [("id", 7); ("pt", 5)] ctx how_list = Ok (PyList [5; 7])
   /\ exists d, Library_group NumPy [("id", 7); ("pt", 5)] ctx how_dict = Ok (Mapping d)
                /\ forall k, In k (keys d) <-> In k (map fst ctx))
  /\ (fst (Ak.group [("id", ak_id); ("pt", ak_pt)] ctx how_tuple w)
        = Ok (Tuple [ak_pt; ak_id])
      /\ fst (Ak.group [("id", ak_id); ("pt", ak_pt)] ctx how_list w)
        = Ok (PyList [ak_pt; ak_id])
      /\ exists d, fst (Ak.group [("id", ak_id); ("pt", ak_pt)] ctx how_dict w)
                     = Ok (Mapping d)
                   /\ forall k, In k (keys d) <-> In k (map fst ctx))
  /\ (fst (Pd.group merged [("id", pd_id); ("pt", pd_pt)] ctx how_tuple w)
        = Ok (Tuple [pd_pt; pd_id])
      /\ fst (Pd.group merged [("id", pd_id); ("pt", pd_pt)] ctx how_list w)
        = Ok (PyList [pd_pt; pd_id])
      /\ exists d, fst (Pd.group merged [("id", pd_id); ("pt", pd_pt)] ctx how_dict w)
                     = Ok (Mapping d)
                   /\ forall k, In k (keys d) <-> In k (map fst ctx)).
Proof.
  intros w ctx ak_pt ak_id pd_pt pd_id merged.
  apply (group_projections nat NumPy w merged ctx
           [("id", 7); ("pt", 5)] [5; 7]
           [("id", ak_id); ("pt", ak_pt)] [ak_pt; ak_id]
           [("id", pd_id); ("pt", pd_pt)] [pd_pt; pd_id]);
    try reflexivity; repeat constructor.
Defined.

(** ** The names of a cluster *)

Lemma slice_to_length s : slice_to (String.length s) s = s.
Proof. induction s as [|a s IH]; simpl; [reflexivity|now rewrite IH]. Qed.

Lemma slice_from_length s : slice_from (String.length s) s = EmptyString.
Proof. induction s as [|a s IH]; simpl; [reflexivity|exact IH]. Qed.

Lemma shrink_same name cut : shrink name name cut = cut.
Proof. destruct cut; simpl; [reflexivity|]. now rewrite String.eqb_refl. Qed.

Lemma all_separators_nonempty s :
  Spec.all_separators s = false -> String.length s <> 0.
Proof. destruct s; simpl; [discriminate|discriminate]. Qed.

Lemma common_cut_single name :
  common_cut [name] = Ok (String.length name).
Proof.
  unfold common_cut, scan. rewrite Nat.min_id, shrink_same.
  destruct (String.length name); reflexivity.
Qed.

(** C10: a cluster of one jagged field whose name is not made of separators
    only is named by the whole field name without its leading and trailing
    separators, and its sub-record has exactly one field, named by the empty
    string. *)
Theorem single_member_cluster (arrays : Dict Ak.Layout) number name v :
  Spec.all_separators name = false ->
  dict_get arrays name = Some v ->
  Prefix.cluster_names number [name] = Ok (strip separators name, [EmptyString])
  /\ Ak.cluster_record arrays number [name]
     = Ok (strip separators name, Ak.Zipped [(EmptyString, v)] None).
Proof.
  intros Hs Hv. apply all_separators_nonempty in Hs.
  unfold Prefix.cluster_names, Ak.cluster_record.
  rewrite common_cut_single. cbn [rbind].
  destruct (Nat.eqb_spec (String.length name) 0) as [E|_]; [contradiction|].
  cbn [map comprehension]. unfold getitem. rewrite Hv. cbn [rbind].
  rewrite slice_to_length, slice_from_length. split; reflexivity.
Qed.

Lemma single_member_cluster_witness :
  let v := Ak.NumpyArray (Given (mkNdArray None [3] (Buf 0))) [] in
  Prefix.cluster_names 2 ["_muon_"] = Ok ("muon", [EmptyString])
  /\ Ak.cluster_record [("_muon_", v)] 2 ["_muon_"]
     = Ok ("muon", Ak.Zipped [(EmptyString, v)] None).
Proof.
  intros v.
  apply (single_member_cluster [("_muon_", v)] 2 "_muon_" v); reflexivity.
Defined.

(** *** Slices *)

Lemma length_slice_to n s :
  String.length (slice_to n s) = Nat.min n (String.length s).
Proof.
  revert s. induction n as [|n IH]; intros [|a s]; simpl; auto.
Qed.

Lemma slice_to_slice_to k n s :
  k <= n -> slice_to k (slice_to n s) = slice_to k s.
Proof.
  revert n s. induction k as [|k IH]; intros n s Hk.
  - destruct (slice_to n s); reflexivity.
  - destruct n as [|n]; [lia|]. destruct s as [|a s]; simpl; [reflexivity|].
    rewrite IH by lia. reflexivity.
Qed.

Lemma slice_to_agree k n a b :
  k <= n -> slice_to n a = slice_to n b -> slice_to k a = slice_to k b.
Proof.
  intros Hk H.
  rewrite <- (slice_to_slice_to k n a Hk), <- (slice_to_slice_to k n b Hk).
  now rewrite H.
Qed.

Lemma slice_to_append q t : slice_to (String.length q) (q ++ t) = q.
Proof. induction q as [|a q IH]; simpl; [now destruct t|now rewrite IH]. Qed.

Lemma slice_from_append q t : slice_from (String.length q) (q ++ t) = t.
Proof. induction q as [|a q IH]; simpl; [now destruct t|exact IH]. Qed.

Lemma slice_to_from n s : (slice_to n s ++ slice_from n s)%string = s.
Proof.
  revert s. induction n as [|n IH]; intros [|a s]; simpl; auto.
  now rewrite IH.
Qed.

Lemma slice_to_0 s : slice_to 0 s = EmptyString.
Proof. now destruct s. Qed.

(** *** The common prefix of two names *)

Lemma common_prefix_same a : Spec.common_prefix a a = a.
Proof.
  induction a as [|x a IH]; simpl; [reflexivity|].
  now rewrite Ascii.eqb_refl, IH.
Qed.

Lemma common_prefix_empty_l b : Spec.common_prefix EmptyString b = EmptyString.
Proof. reflexivity. Qed.

Lemma common_prefix_slice_l a b :
  slice_to (String.length (Spec.common_prefix a b)) a = Spec.common_prefix a b.
Proof.
  revert b. induction a as [|x a IH]; intros [|y b]; simpl; try reflexivity.
  destruct (Ascii.eqb x y); simpl; [now rewrite IH|reflexivity].
Qed.

Lemma common_prefix_slice_r a b :
  slice_to (String.length (Spec.common_prefix a b)) b = Spec.common_prefix a b.
Proof.
  revert b. induction a as [|x a IH]; intros [|y b]; simpl; try reflexivity.
  destruct (Ascii.eqb_spec x y) as [->|]; simpl; [now rewrite IH|reflexivity].
Qed.

Lemma common_prefix_longest k a b :
  k <= String.length a -> k <= String.length b ->
  slice_to k a = slice_to k b ->
  k <= String.length (Spec.common_prefix a b).
Proof.
  revert a b. induction k as [|k IH]; intros a b Ha Hb H; [lia|].
  destruct a as [|x a]; [simpl in Ha; lia|].
  destruct b as [|y b]; [simpl in Hb; lia|].
  simpl in *. injection H as -> H. rewrite Ascii.eqb_refl. simpl.
  apply le_n_S, IH; [lia|lia|exact H].
Qed.

Lemma fold_common_prefix_empty names :
  fold_left Spec.common_prefix names EmptyString = EmptyString.
Proof. induction names as [|n names IH]; simpl; [reflexivity|exact IH]. Qed.

(** *** The loop computes the longest common prefix *)

Lemma shrink_le name first cut : shrink name first cut <= cut.
Proof.
  induction cut as [|c IH]; simpl; [lia|].
  destruct (String.eqb _ _); lia.
Qed.

Lemma shrink_agree name first cut :
  slice_to (shrink name first cut) name = slice_to (shrink name first cut) first.
Proof.
  induction cut as [|c IH]; [now rewrite !slice_to_0|].
  cbn [shrink].
  destruct (String.eqb_spec (slice_to (S c) name) (slice_to (S c) first)) as [E|_];
    [exact E|exact IH].
Qed.

Lemma shrink_longest k name first cut :
  k <= cut -> slice_to k name = slice_to k first -> k <= shrink name first cut.
Proof.
  induction cut as [|c IH]; intros Hk H; [simpl; lia|].
  cbn [shrink].
  destruct (String.eqb_spec (slice_to (S c) name) (slice_to (S c) first)) as [_|Hne];
    [exact Hk|].
  apply IH; [|exact H].
  destruct (Nat.eq_dec k (S c)) as [->|]; [contradiction|lia].
Qed.

Lemma shrink_common_prefix name first cut :
  cut <= String.length first ->
  let c := shrink name first (Nat.min cut (String.length name)) in
  c = String.length (Spec.common_prefix (slice_to cut first) name)
  /\ slice_to c first = Spec.common_prefix (slice_to cut first) name.
Proof.
  intros Hcut c.
  set (acc := slice_to cut first).
  assert (Hacc : String.length acc = cut)
    by (unfold acc; rewrite length_slice_to; lia).
  set (k := String.length (Spec.common_prefix acc name)).
  assert (Hk1 : slice_to k acc = Spec.common_prefix acc name)
    by apply common_prefix_slice_l.
  assert (Hk2 : slice_to k name = Spec.common_prefix acc name)
    by apply common_prefix_slice_r.
  assert (Hkcut : k <= cut).
  { rewrite <- Hacc. unfold k. rewrite <- Hk1 at 1.
    rewrite length_slice_to. lia. }
  assert (Hkname : k <= String.length name).
  { unfold k. rewrite <- Hk2 at 1. rewrite length_slice_to. lia. }
  assert (Hkfirst : slice_to k first = Spec.common_prefix acc name).
  { rewrite <- Hk1. unfold acc. now rewrite slice_to_slice_to. }
  assert (Hc : c = k).
  { apply Nat.le_antisymm.
    - pose proof (shrink_le name first (Nat.min cut (String.length name))) as Hle.
      fold c in Hle.
      apply common_prefix_longest; [lia|lia|].
      unfold acc. rewrite slice_to_slice_to by lia.
      symmetry. apply shrink_agree.
    - apply shrink_longest; [lia|]. now rewrite Hk2, Hkfirst. }
  split; [exact Hc|]. rewrite Hc. exact Hkfirst.
Qed.

Lemma scan_fold names : forall first cut,
  cut <= String.length first ->
  let p := fold_left Spec.common_prefix names (slice_to cut first) in
  scan first names cut = String.length p
  /\ slice_to (scan first names cut) first = p.
Proof.
  induction names as [|name names IH]; intros first cut Hcut; cbn [scan fold_left].
  - split; [rewrite length_slice_to; lia|reflexivity].
  - destruct (shrink_common_prefix name first cut Hcut) as [Hc Hs].
    set (c := shrink name first (Nat.min cut (String.length name))) in *.
    rewrite <- Hs.
    destruct (Nat.eqb_spec c 0) as [E|_].
    + rewrite E, slice_to_0, fold_common_prefix_empty. split; reflexivity.
    + apply IH.
      pose proof (shrink_le name first (Nat.min cut (String.length name))).
      fold c in H. lia.
Qed.

(** The loop's [cut] is the length of the longest common prefix, and
    [jagged[0][:cut]] is that prefix. *)
Lemma common_cut_longest_common_prefix first rest :
  let p := Spec.longest_common_prefix (first :: rest) in
  common_cut (first :: rest) = Ok (String.length p)
  /\ slice_to (String.length p) first = p.
Proof.
  cbn [Spec.longest_common_prefix common_cut].
  destruct (scan_fold (first :: rest) first (String.length first) (le_n _))
    as [H1 H2].
  cbn [fold_left] in H1, H2.
  rewrite slice_to_length, common_prefix_same in H1, H2.
  rewrite H1. split; [reflexivity|]. now rewrite <- H1.
Qed.

(** *** [Spec.longest_common_prefix] is the longest common prefix *)

Lemma is_prefix_slice q s :
  Spec.is_prefix q s <-> slice_to (String.length q) s = q.
Proof.
  split.
  - intros [t ->]. apply slice_to_append.
  - intros H. exists (slice_from (String.length q) s).
    pose proof (slice_to_from (String.length q) s) as E.
    rewrite H in E. now symmetry.
Qed.

Lemma is_prefix_length q s : Spec.is_prefix q s -> String.length q <= String.length s.
Proof.
  intros H. apply is_prefix_slice in H.
  rewrite <- H at 1. rewrite length_slice_to. lia.
Qed.

Lemma is_prefix_trans a b c :
  Spec.is_prefix a b -> Spec.is_prefix b c -> Spec.is_prefix a c.
Proof.
  intros Hab Hbc. pose proof (is_prefix_length _ _ Hab) as Hl.
  apply is_prefix_slice in Hab, Hbc. apply is_prefix_slice.
  rewrite <- (slice_to_slice_to _ (String.length b) c Hl), Hbc. exact Hab.
Qed.

Lemma common_prefix_is_prefix a b :
  Spec.is_prefix (Spec.common_prefix a b) a
  /\ Spec.is_prefix (Spec.common_prefix a b) b.
Proof.
  split; apply is_prefix_slice;
    [apply common_prefix_slice_l|apply common_prefix_slice_r].
Qed.

Lemma common_prefix_greatest q a b :
  Spec.is_prefix q a -> Spec.is_prefix q b ->
  Spec.is_prefix q (Spec.common_prefix a b).
Proof.
  intros Ha Hb.
  pose proof (is_prefix_length _ _ Ha) as La.
  pose proof (is_prefix_length _ _ Hb) as Lb.
  apply is_prefix_slice in Ha, Hb. apply is_prefix_slice.
  assert (Hq : String.length q <= String.length (Spec.common_prefix a b))
    by (apply common_prefix_longest; [exact La|exact Lb|congruence]).
  rewrite <- (common_prefix_slice_l a b), slice_to_slice_to by exact Hq.
  exact Ha.
Qed.

Lemma fold_common_prefix_is_prefix names : forall acc,
  Spec.is_prefix (fold_left Spec.common_prefix names acc) acc
  /\ forall name, In name names ->
       Spec.is_prefix (fold_left Spec.common_prefix names acc) name.
Proof.
  induction names as [|n names IH]; intros acc; cbn [fold_left].
  - split; [exists EmptyString; clear; induction acc; simpl; congruence|].
    intros name [].
  - destruct (IH (Spec.common_prefix acc n)) as [H1 H2].
    destruct (common_prefix_is_prefix acc n) as [Ha Hn].
    split; [eapply is_prefix_trans; eassumption|].
    intros name [<-|Hin]; [eapply is_prefix_trans; eassumption|now apply H2].
Qed.

Lemma fold_common_prefix_greatest q names : forall acc,
  Spec.is_prefix q acc ->
  (forall name, In name names -> Spec.is_prefix q name) ->
  Spec.is_prefix q (fold_left Spec.common_prefix names acc).
Proof.
  induction names as [|n names IH]; intros acc Hacc Hall; cbn [fold_left].
  - exact Hacc.
  - apply IH.
    + apply common_prefix_greatest; [exact Hacc|apply Hall; now left].
    + intros name Hin. apply Hall. now right.
Qed.

Lemma longest_common_prefix_common first rest name :
  In name (first :: rest) ->
  Spec.is_prefix (Spec.longest_common_prefix (first :: rest)) name.
Proof.
  cbn [Spec.longest_common_prefix].
  destruct (fold_common_prefix_is_prefix rest first) as [H1 H2].
  intros [<-|Hin]; [exact H1|now apply H2].
Qed.

Lemma longest_common_prefix_greatest first rest q :
  (forall name, In name (first :: rest) -> Spec.is_prefix q name) ->
  Spec.is_prefix q (Spec.longest_common_prefix (first :: rest)).
Proof.
  intros Hall. cbn [Spec.longest_common_prefix].
  apply fold_common_prefix_greatest.
  - apply Hall. now left.
  - intros name Hin. apply Hall. now right.
Qed.

(** C1, as stated, fails in three ways: a common prefix made of separators
    does not lead to the synthetic name; leading separators of the common
    prefix are stripped too; and a member's remainder loses its own leading
    and trailing separators. *)
Lemma cluster_names_differ_from_specification :
  Prefix.cluster_names 0 ["_a"; "_b"] <> Ok (Spec.cluster_names 0 ["_a"; "_b"])
  /\ Prefix.cluster_names 0 ["_muon_pt"; "_muon_eta"]
     <> Ok (Spec.cluster_names 0 ["_muon_pt"; "_muon_eta"])
  /\ Prefix.cluster_names 0 ["ab"; "a_c"] <> Ok (Spec.cluster_names 0 ["ab"; "a_c"]).
Proof. repeat split; discriminate. Qed.

(** C1, amended: with [p] the longest common leading part of all member
    names of a cluster, a cluster with empty [p] is named
    [jagged<number>] and zipped under the member names; any other cluster is
    named by [p] without its leading and trailing separators, and each
    member's key is what follows [p] in its name, without leading and
    trailing separators. *)
Theorem cluster_names_by_longest_common_prefix number first rest :
  (forall name, In name (first :: rest) ->
     Spec.is_prefix (Spec.longest_common_prefix (first :: rest)) name)
  /\ (forall q, (forall name, In name (first :: rest) -> Spec.is_prefix q name) ->
        String.length q <= String.length (Spec.longest_common_prefix (first :: rest)))
  /\ Prefix.cluster_names number (first :: rest) =
       Ok (if Nat.eqb (String.length (Spec.longest_common_prefix (first :: rest))) 0
           then (("jagged" ++ str_of_nat number)%string, first :: rest)
           else (strip separators (Spec.longest_common_prefix (first :: rest)),
                 map (fun name =>
                        strip separators
                          (slice_from
                             (String.length
                                (Spec.longest_common_prefix (first :: rest)))
                             name))
                     (first :: rest))).
Proof.
  split; [|split].
  - intros name. apply longest_common_prefix_common.
  - intros q Hq. apply is_prefix_length.
    now apply longest_common_prefix_greatest.
  - destruct (common_cut_longest_common_prefix first rest) as [Hc Hp].
    unfold Prefix.cluster_names. rewrite Hc. cbn [rbind].
    destruct (Nat.eqb _ 0); [reflexivity|].
    now rewrite Hp.
Qed.

(** *** Stripping the remainders *)

Lemma string_app_assoc (a b c : string) :
  ((a ++ b) ++ c = a ++ (b ++ c))%string.
Proof. induction a as [|x a IH]; simpl; [reflexivity|now rewrite IH]. Qed.

Lemma string_app_length (a b : string) :
  String.length (a ++ b) = String.length a + String.length b.
Proof. induction a as [|x a IH]; simpl; [reflexivity|now rewrite IH]. Qed.

Lemma rstrip_is_prefix chars s : Spec.is_prefix (rstrip chars s) s.
Proof.
  induction s as [|a s [t IH]]; cbn [rstrip].
  - now exists EmptyString.
  - destruct (rstrip chars s) as [|b r] eqn:E.
    + destruct (char_in a chars).
      * now exists (String a s).
      * exists s. reflexivity.
    + exists t. simpl. now rewrite IH at 1.
Qed.

Lemma length_0_empty s : String.length s = 0 -> s = EmptyString.
Proof. destruct s; [reflexivity|discriminate]. Qed.

(** What follows the longest common prefix in the member names has no
    common first character. *)
Lemma remainders_share_no_prefix first rest (f : string -> string) :
  (forall name, In name (first :: rest) ->
     Spec.is_prefix
       (f name)
       (slice_from (String.length (Spec.longest_common_prefix (first :: rest))) name)) ->
  Spec.longest_common_prefix (map f (first :: rest)) = EmptyString.
Proof.
  intros Hf.
  set (p := Spec.longest_common_prefix (first :: rest)) in *.
  set (q := Spec.longest_common_prefix (map f (first :: rest))).
  apply length_0_empty.
  assert (Hpq : Spec.is_prefix (p ++ q) p).
  { apply longest_common_prefix_greatest. intros name Hin.
    assert (Hq : Spec.is_prefix q (f name)).
    { apply (longest_common_prefix_common (f first) (map f rest)).
      change (In (f name) (map f (first :: rest))). now apply in_map. }
    destruct (is_prefix_trans _ _ _ Hq (Hf name Hin)) as [t Ht].
    pose proof (longest_common_prefix_common first rest name Hin) as Hp.
    fold p in Hp. apply is_prefix_slice in Hp.
    exists t. rewrite string_app_assoc, <- Ht.
    pose proof (slice_to_from (String.length p) name) as E.
    rewrite Hp in E. now symmetry. }
  apply is_prefix_length in Hpq. rewrite string_app_length in Hpq.
  fold q. lia.
Qed.

(** C6, as stated, fails: the remainders [_x] and [.x] are both stripped to
    [x], which the common-prefix computation finds again. *)
Lemma stripped_names_share_a_prefix :
  Prefix.cluster_names 0 ["a_x"; "a.x"] = Ok ("a", ["x"; "x"])
  /\ common_cut ["x"; "x"] = Ok 1
  /\ ~ (forall common subnames,
          Prefix.cluster_names 0 ["a_x"; "a.x"] = Ok (common, subnames) ->
          common_cut subnames = Ok 0).
Proof.
  split; [reflexivity|]. split; [reflexivity|].
  intros H. specialize (H "a" ["x"; "x"] eq_refl). discriminate H.
Qed.

(** C6, amended: when no member's remainder after the common prefix begins
    with a separator, running the common-prefix computation again on the
    keys the members are zipped under gives the empty prefix (a cut of
    zero). *)
Theorem stripped_names_share_no_prefix number first rest cut common subnames :
  common_cut (first :: rest) = Ok cut ->
  Prefix.cluster_names number (first :: rest) = Ok (common, subnames) ->
  (cut <> 0 ->
   Forall (fun name =>
             lstrip separators (slice_from cut name) = slice_from cut name)
          (first :: rest)) ->
  common_cut subnames = Ok 0
  /\ Spec.longest_common_prefix subnames = EmptyString.
Proof.
  intros Hcut Hnames Hsep.
  destruct (common_cut_longest_common_prefix first rest) as [Hc Hp].
  set (p := Spec.longest_common_prefix (first :: rest)) in *.
  assert (E : cut = String.length p) by congruence.
  subst cut. clear Hcut.
  unfold Prefix.cluster_names in Hnames. rewrite Hc in Hnames. cbn [rbind] in Hnames.
  destruct (Nat.eqb_spec (String.length p) 0) as [E|Hne].
  - assert (subnames = first :: rest) by congruence. subst subnames.
    rewrite Hc, E. split; [reflexivity|]. now apply length_0_empty.
  - assert (Hsub : subnames =
                     map (fun name => strip separators (slice_from (String.length p) name))
                         (first :: rest)) by congruence.
    subst subnames.
    assert (Hq : Spec.longest_common_prefix
                   (map (fun name => strip separators (slice_from (String.length p) name))
                        (first :: rest)) = EmptyString).
    { apply remainders_share_no_prefix. intros name Hin. fold p.
      specialize (Hsep Hne). rewrite Forall_forall in Hsep.
      unfold strip. rewrite (Hsep name Hin). apply rstrip_is_prefix. }
    split; [|exact Hq].
    destruct (common_cut_longest_common_prefix
                (strip separators (slice_from (String.length p) first))
                (map (fun name => strip separators (slice_from (String.length p) name)) rest))
      as [Hc' _].
    change (strip separators (slice_from (String.length p) first)
              :: map (fun name => strip separators (slice_from (String.length p) name)) rest)
      with (map (fun name => strip separators (slice_from (String.length p) name))
                (first :: rest)) in Hc'.
    rewrite Hc', Hq. reflexivity.
Qed.

Lemma stripped_names_share_no_prefix_witness :
  common_cut ["pt"; "eta"] = Ok 0
  /\ Spec.longest_common_prefix ["pt"; "eta"] = EmptyString.
Proof.
  apply (stripped_names_share_no_prefix 0 "muon_pt" ["muon_eta"] 5 "muon" ["pt"; "eta"]).
  - reflexivity.
  - reflexivity.
  - intros _. repeat constructor.
Defined.

(** ** [Pandas.finalize]: the columns of a structured array *)

Lemma fold_add_column {A} (f : A -> string) (g : A -> NpValue) (l : list A) :
  forall st : Pd.Columns,
  fst (fold_left (fun st x => Pd.add_column st (f x) (g x)) l st)
    = fst st ++ map f l
  /\ forall k,
       In k (keys (snd (fold_left (fun st x => Pd.add_column st (f x) (g x)) l st)))
       <-> In k (keys (snd st)) \/ In k (map f l).
Proof.
  induction l as [|x l IH]; intros st; cbn [fold_left map].
  - rewrite app_nil_r. split; [reflexivity|]. simpl. intuition.
  - destruct (IH (Pd.add_column st (f x) (g x))) as [H1 H2].
    split.
    + rewrite H1. unfold Pd.add_column. cbn [fst]. now rewrite <- app_assoc.
    + intros k. rewrite H2. unfold Pd.add_column. cbn [snd].
      rewrite keys_dict_set. simpl. intuition.
Qed.

Lemma fold_fold_add_column {A B} (f : A -> B -> string) (g : A -> B -> NpValue)
    (inner : list B) (outer : list A) :
  forall st : Pd.Columns,
  let run :=
    fold_left
      (fun st n => fold_left (fun st t => Pd.add_column st (f n t) (g n t)) inner st)
      outer st in
  fst run = fst st ++ flat_map (fun n => map (f n) inner) outer
  /\ forall k, In k (keys (snd run))
               <-> In k (keys (snd st))
                   \/ In k (flat_map (fun n => map (f n) inner) outer).
Proof.
  induction outer as [|n outer IH]; intros st; cbn [fold_left flat_map].
  - rewrite app_nil_r. split; [reflexivity|]. simpl. intuition.
  - destruct (fold_add_column (f n) (g n) inner st) as [H1 H2].
    destruct (IH (fold_left (fun st t => Pd.add_column st (f n t) (g n t)) inner st))
      as [I1 I2].
    split.
    + rewrite I1, H1. now rewrite <- app_assoc.
    + intros k. rewrite I2, H2, in_app_iff. intuition.
Qed.

(** *** [itertools.product] *)

Lemma flat_map_length_const {A B} (f : A -> list B) n (l : list A) :
  (forall x, List.length (f x) = n) ->
  List.length (flat_map f l) = List.length l * n.
Proof.
  intros Hf. induction l as [|x l IH]; simpl; [reflexivity|].
  now rewrite length_app, Hf, IH.
Qed.

Lemma product_from_length (pools : list (list nat)) : forall acc : list (list nat),
  List.length
    (fold_left
       (fun result pool => flat_map (fun x => map (fun y => x ++ [y]) pool) result)
       pools acc)
  = List.length acc * fold_right Nat.mul 1 (map (@List.length nat) pools).
Proof.
  induction pools as [|pool pools IH]; intros acc; cbn [fold_left map fold_right].
  - lia.
  - rewrite IH.
    rewrite (flat_map_length_const _ (List.length pool))
      by (intros x; apply length_map).
    lia.
Qed.

Lemma product_length dims :
  List.length (Pd.product (map Pd.range dims)) = fold_right Nat.mul 1 dims.
Proof.
  unfold Pd.product. rewrite product_from_length. simpl.
  rewrite map_map. unfold Pd.range.
  rewrite (map_ext _ (fun d => d)) by (intros d; apply length_seq).
  rewrite map_id. lia.
Qed.

Lemma product_from_In (pools : list (list nat)) : forall (acc : list (list nat)) (t : list nat),
  In t (fold_left
          (fun result pool => flat_map (fun x => map (fun y => x ++ [y]) pool) result)
          pools acc)
  <-> exists t0 t1, t = t0 ++ t1 /\ In t0 acc
                    /\ Forall2 (fun y pool => In y pool) t1 pools.
Proof.
  induction pools as [|pool pools IH]; intros acc t; cbn [fold_left].
  - split.
    + intros H. exists t, []. rewrite app_nil_r. repeat split; [exact H|constructor].
    + intros (t0 & t1 & -> & H0 & H1). inversion H1. now rewrite app_nil_r.
  - rewrite IH. split.
    + intros (t0 & t1 & -> & H0 & H1).
      apply in_flat_map in H0. destruct H0 as (x & Hx & H0).
      apply in_map_iff in H0. destruct H0 as (y & <- & Hy).
      exists x, (y :: t1). rewrite <- app_assoc. repeat split; [exact Hx|].
      now constructor.
    + intros (t0 & t1 & -> & H0 & H1). inversion H1 as [|y pool' t1' pools' Hy H1']; subst.
      exists (t0 ++ [y]), t1'. rewrite <- app_assoc. repeat split; [|exact H1'].
      apply in_flat_map. exists t0. split; [exact H0|].
      apply in_map_iff. now exists y.
Qed.

Lemma product_In dims tup :
  In tup (Pd.product (map Pd.range dims)) <-> Forall2 lt tup dims.
Proof.
  unfold Pd.product. rewrite product_from_In. split.
  - intros (t0 & t1 & -> & [<-|[]] & H). simpl.
    revert t1 H. induction dims as [|d dims IH]; intros t1 H; inversion H; subst.
    + constructor.
    + constructor; [|now apply IH].
      unfold Pd.range in *. match goal with Hy : In _ (seq _ _) |- _ =>
        apply in_seq in Hy; lia end.
  - intros H. exists [], tup. repeat split; [now left|].
    induction H as [|y d tup dims Hy _ IH]; cbn [map]; constructor; [|exact IH].
    unfold Pd.range. apply in_seq. lia.
Qed.

Lemma brackets_nil : Pd.brackets [] = EmptyString.
Proof. reflexivity. Qed.

Lemma string_app_empty_r (s : string) : (s ++ "")%string = s.
Proof. induction s as [|a s IH]; simpl; [reflexivity|now rewrite IH]. Qed.

Lemma column_names_one_dimension subfields :
  Spec.column_names subfields [] = subfields.
Proof.
  unfold Spec.column_names. cbn [map].
  change (Pd.product []) with [@nil nat].
  induction subfields as [|n l IH]; [reflexivity|].
  change (((n ++ "")%string :: flat_map
             (fun n => map (fun tup => (n ++ Pd.brackets tup)%string) [[]]) l)
          = n :: l).
  f_equal; [apply string_app_empty_r|exact IH].
Qed.

Lemma column_names_length subfields trailing :
  List.length (Spec.column_names subfields trailing)
    = List.length subfields * fold_right Nat.mul 1 trailing.
Proof.
  unfold Spec.column_names.
  apply flat_map_length_const. intros n.
  now rewrite length_map, product_length.
Qed.

Lemma flat_map_map {A B C} (h : B -> C) (f : A -> list B) (l : list A) :
  map h (flat_map f l) = flat_map (fun x => map h (f x)) l.
Proof.
  induction l as [|x l IH]; simpl; [reflexivity|].
  now rewrite map_app, IH.
Qed.

(** C9, as stated, fails: every column name begins with a colon, before the
    subfield name. *)
Lemma structured_columns_begin_with_colon :
  let w := mkWorld ["pandas"] ["numpy"] 0 in
  (exists data,
     fst (Pd.finalize (Flat (mkNdArray (Some ["x"; "y"]) [5] (Buf 0))) w)
       = Ok (Pd.DataFrame data [":x"; ":y"]))
  /\ [":x"; ":y"] <> Spec.column_names ["x"; "y"] []
  /\ (exists data,
        fst (Pd.finalize (Flat (mkNdArray (Some ["x"; "y"]) [5; 2] (Buf 0))) w)
          = Ok (Pd.DataFrame data [":x[0]"; ":x[1]"; ":y[0]"; ":y[1]"]))
  /\ [":x[0]"; ":x[1]"; ":y[0]"; ":y[1]"] <> Spec.column_names ["x"; "y"] [2].
Proof.
  intros w. split; [eexists; reflexivity|]. split; [discriminate|].
  split; [eexists; reflexivity|discriminate].
Qed.

(** C9, amended: a flat array with a structured element type becomes a table
    with one column per subfield when it has one dimension, and one column
    per subfield and combination of trailing-dimension indices when it has
    more; each column is named by a colon, then the subfield name, then one
    bracketed index per trailing dimension (none for one dimension). *)
Theorem finalize_structured_columns a dnames length extra w :
  available "pandas" w = true ->
  dtype_names a = Some dnames ->
  shape a = length :: extra ->
  exists data,
    fst (Pd.finalize (Flat a) w)
      = Ok (Pd.DataFrame data
              (map (fun c => (":" ++ c)%string) (Spec.column_names dnames extra)))
    /\ (forall k, In k (keys data)
                  <-> In k (map (fun c => (":" ++ c)%string)
                                (Spec.column_names dnames extra)))
    /\ List.length (Spec.column_names dnames extra)
       = List.length dnames * fold_right Nat.mul 1 extra
    /\ Spec.column_names dnames [] = dnames
    /\ (forall tup, In tup (Pd.product (map Pd.range extra))
                    <-> Forall2 lt tup extra).
Proof.
  intros Ha Hn Hs. unfold Pd.finalize. imported_ok Pandas Ha.
  rewrite Hn, Hs. cbn [tl List.length].
  assert (Hrest : List.length (Spec.column_names dnames extra)
                  = List.length dnames * fold_right Nat.mul 1 extra
                  /\ Spec.column_names dnames [] = dnames
                  /\ (forall tup, In tup (Pd.product (map Pd.range extra))
                                  <-> Forall2 lt tup extra)).
  { split; [apply column_names_length|].
    split; [apply column_names_one_dimension|]. intros tup. apply product_In. }
  destruct extra as [|d extra].
  - cbn [Nat.eqb negb ret fst].
    rewrite column_names_one_dimension in Hrest |- *.
    eexists. split; [reflexivity|]. split; [|exact Hrest].
    intros k. rewrite keys_dict_of, map_map. reflexivity.
  - cbn [Nat.eqb negb ret fst].
    destruct (fold_fold_add_column
                (fun n tup => (":" ++ n ++ Pd.brackets tup)%string)
                (fun n tup => FieldAt a n tup)
                (Pd.product (map Pd.range (d :: extra))) dnames ([], []))
      as [H1 H2].
    cbn [fst snd app] in H1, H2.
    assert (Hcols : map (fun c => (":" ++ c)%string)
                        (Spec.column_names dnames (d :: extra))
                    = flat_map
                        (fun n => map (fun tup => (":" ++ n ++ Pd.brackets tup)%string)
                                      (Pd.product (map Pd.range (d :: extra))))
                        dnames).
    { unfold Spec.column_names. rewrite flat_map_map.
      apply flat_map_ext. intros n. now rewrite map_map. }
    rewrite Hcols.
    eexists. split; [rewrite <- H1; reflexivity|]. split; [|exact Hrest].
    intros k. rewrite H2. simpl. intuition.
Qed.

Lemma finalize_structured_columns_witness :
  exists data,
    fst (Pd.finalize (Flat (mkNdArray (Some ["x"; "y"]) [5; 2; 3] (Buf 0)))
           (mkWorld ["pandas"] ["numpy"] 0))
      = Ok (Pd.DataFrame data
              (map (fun c => (":" ++ c)%string) (Spec.column_names ["x"; "y"] [2; 3])))
    /\ (forall k, In k (keys data)
                  <-> In k (map (fun c => (":" ++ c)%string)
                                (Spec.column_names ["x"; "y"] [2; 3])))
    /\ List.length (Spec.column_names ["x"; "y"] [2; 3])
       = List.length ["x"; "y"] * fold_right Nat.mul 1 [2; 3]
    /\ Spec.column_names ["x"; "y"] [] = ["x"; "y"]
    /\ (forall tup, In tup (Pd.product (map Pd.range [2; 3]))
                    <-> Forall2 lt tup [2; 3]).
Proof.
  apply (finalize_structured_columns
           (mkNdArray (Some ["x"; "y"]) [5; 2; 3] (Buf 0)) ["x"; "y"] 5 [2; 3]
           (mkWorld ["pandas"] ["numpy"] 0)); reflexivity.
Defined.

(** ** Clustering by offsets *)

Lemma list_Z_eqb_eq a b : list_Z_eqb a b = true <-> a = b.
Proof.
  revert b. induction a as [|x a IH]; intros [|y b]; simpl;
    try (split; [discriminate|discriminate]); [tauto|].
  rewrite andb_true_iff, Z.eqb_eq, IH. split.
  - intros [-> ->]. reflexivity.
  - intros H. injection H as -> ->. auto.
Qed.

Lemma same_offsets_eq a b :
  Spec.same_offsets a b = true
  <-> ia_values (Ak.index_array a) = ia_values (Ak.index_array b).
Proof. unfold Spec.same_offsets, array_equal. apply list_Z_eqb_eq. Qed.

Lemma same_offsets_refl a : Spec.same_offsets a a = true.
Proof. now apply same_offsets_eq. Qed.

Lemma same_offsets_sym a b : Spec.same_offsets a b = Spec.same_offsets b a.
Proof.
  destruct (Spec.same_offsets a b) eqn:E1, (Spec.same_offsets b a) eqn:E2;
    try reflexivity.
  - apply same_offsets_eq in E1. symmetry in E1. apply same_offsets_eq in E1. congruence.
  - apply same_offsets_eq in E2. symmetry in E2. apply same_offsets_eq in E2. congruence.
Qed.

Lemma same_offsets_trans a b c :
  Spec.same_offsets a b = true -> Spec.same_offsets b c = true ->
  Spec.same_offsets a c = true.
Proof. rewrite !same_offsets_eq. congruence. Qed.

(** With [a] and [b] the same, comparing either with [c] gives the same
    answer. *)
Lemma same_offsets_congr a b c :
  Spec.same_offsets a b = true ->
  Spec.same_offsets a c = Spec.same_offsets b c.
Proof.
  intros Hab.
  destruct (Spec.same_offsets b c) eqn:E.
  - eapply same_offsets_trans; eassumption.
  - destruct (Spec.same_offsets a c) eqn:E'; [|reflexivity].
    rewrite same_offsets_sym in Hab.
    rewrite (same_offsets_trans _ _ _ Hab E') in E. discriminate.
Qed.

(** *** [first_seen] *)

Lemma first_seen_In o os : In o (Spec.first_seen os) -> In o os.
Proof.
  revert o. induction os as [|a os IH]; intros o; simpl; [tauto|].
  intros [->|H]; [now left|]. apply filter_In in H. right. now apply IH.
Qed.

(** Every offsets array has its representative among the first seen. *)
Lemma first_seen_represents o os :
  In o os -> existsb (Spec.same_offsets o) (Spec.first_seen os) = true.
Proof.
  induction os as [|a os IH]; simpl; [tauto|].
  intros [->|H]; [now rewrite same_offsets_refl|].
  destruct (Spec.same_offsets o a) eqn:E; [reflexivity|]. simpl.
  specialize (IH H). apply existsb_exists in IH. destruct IH as (r & Hr & Hor).
  apply existsb_exists. exists r. split; [|exact Hor].
  apply filter_In. split; [exact Hr|].
  destruct (Spec.same_offsets r a) eqn:E'; [|reflexivity].
  rewrite (same_offsets_trans _ _ _ Hor E') in E. discriminate.
Qed.

Lemma existsb_filter_other o a (l : list Ak.Index) :
  Spec.same_offsets o a = false ->
  existsb (Spec.same_offsets o)
    (filter (fun o' => negb (Spec.same_offsets o' a)) l)
  = existsb (Spec.same_offsets o) l.
Proof.
  intros Hoa. induction l as [|x l IH]; simpl; [reflexivity|].
  destruct (Spec.same_offsets x a) eqn:Exa; simpl.
  - rewrite IH.
    destruct (Spec.same_offsets o x) eqn:Eox; [|reflexivity].
    rewrite (same_offsets_trans _ _ _ Eox Exa) in Hoa. discriminate.
  - now rewrite IH.
Qed.

(** One more offsets array at the end: it is appended when it is new, and
    changes nothing otherwise. *)
Lemma first_seen_snoc os o :
  Spec.first_seen (os ++ [o]) =
    if existsb (Spec.same_offsets o) (Spec.first_seen os)
    then Spec.first_seen os
    else Spec.first_seen os ++ [o].
Proof.
  induction os as [|a os IH]; simpl; [reflexivity|].
  rewrite IH.
  destruct (Spec.same_offsets o a) eqn:Eoa; simpl.
  - destruct (existsb _ (Spec.first_seen os)); [reflexivity|].
    rewrite filter_app. simpl. rewrite Eoa. simpl. now rewrite app_nil_r.
  - rewrite (existsb_filter_other _ _ _ Eoa).
    destruct (existsb _ (Spec.first_seen os)); [reflexivity|].
    rewrite filter_app. simpl. now rewrite Eoa.
Qed.

Lemma distinct_filter (f : Ak.Index -> bool) os :
  Spec.distinct os -> Spec.distinct (filter f os).
Proof.
  induction 1 as [|o os Ho _ IH]; simpl; [constructor|].
  destruct (f o); [|exact IH].
  constructor; [|exact IH].
  apply not_true_is_false. intros H. apply existsb_exists in H.
  destruct H as (r & Hr & Hor). apply filter_In in Hr.
  assert (existsb (Spec.same_offsets o) os = true)
    by (apply existsb_exists; exists r; tauto).
  congruence.
Qed.

Lemma first_seen_distinct os : Spec.distinct (Spec.first_seen os).
Proof.
  induction os as [|a os IH]; simpl; constructor.
  - apply not_true_is_false. intros H. apply existsb_exists in H.
    destruct H as (r & Hr & Har). apply filter_In in Hr. destruct Hr as [_ Hr].
    rewrite same_offsets_sym, Har in Hr. discriminate.
  - now apply distinct_filter.
Qed.

(** *** [place] and one step of the clustering loop *)

Lemma members_snoc off names name o :
  Spec.members off (names ++ [name]) o =
    Spec.members off names o
    ++ (if Spec.same_offsets (off name) o then [name] else []).
Proof. unfold Spec.members. rewrite filter_app. reflexivity. Qed.

Lemma members_snoc_other off names name o :
  Spec.same_offsets (off name) o = false ->
  Spec.members off (names ++ [name]) o = Spec.members off names o.
Proof. intros H. rewrite members_snoc, H. apply app_nil_r. Qed.

Lemma map_members_no_match off names name os :
  existsb (Spec.same_offsets (off name)) os = false ->
  map (Spec.members off (names ++ [name])) os = map (Spec.members off names) os.
Proof.
  induction os as [|o os IH]; simpl; [reflexivity|].
  intros H. apply orb_false_iff in H. destruct H as [H1 H2].
  now rewrite members_snoc_other, IH.
Qed.

Lemma members_unrepresented off names o :
  existsb (Spec.same_offsets o) (Spec.first_seen (map off names)) = false ->
  Spec.members off names o = [].
Proof.
  intros H. unfold Spec.members.
  destruct (filter _ names) as [|n l] eqn:E; [reflexivity|].
  assert (Hn : In n (filter (fun n => Spec.same_offsets (off n) o) names))
    by (rewrite E; now left).
  apply filter_In in Hn. destruct Hn as [Hin Hsame].
  pose proof (first_seen_represents (off n) (map off names) (in_map off _ _ Hin)) as Hr.
  apply existsb_exists in Hr. destruct Hr as (r & Hr & Hnr).
  assert (existsb (Spec.same_offsets o) (Spec.first_seen (map off names)) = true).
  { apply existsb_exists. exists r. split; [exact Hr|].
    rewrite <- (same_offsets_congr _ _ r Hsame). exact Hnr. }
  congruence.
Qed.

Lemma place_members off names name os :
  Spec.distinct os ->
  Ak.place (off name) name os (map (Spec.members off names) os) =
    if existsb (Spec.same_offsets (off name)) os
    then Some (map (Spec.members off (names ++ [name])) os)
    else None.
Proof.
  induction 1 as [|o os Ho Hd IH]; [reflexivity|].
  cbn [map Ak.place existsb].
  change (array_equal (Ak.index_array (off name)) (Ak.index_array o))
    with (Spec.same_offsets (off name) o).
  destruct (Spec.same_offsets (off name) o) eqn:E; cbn [orb].
  - rewrite members_snoc, E. f_equal. f_equal.
    symmetry. apply map_members_no_match.
    apply not_true_is_false. intros H. apply existsb_exists in H.
    destruct H as (r & Hr & Hnr).
    assert (existsb (Spec.same_offsets o) os = true).
    { apply existsb_exists. exists r. split; [exact Hr|].
      rewrite <- (same_offsets_congr _ _ r E). exact Hnr. }
    congruence.
  - rewrite IH.
    destruct (existsb (Spec.same_offsets (off name)) os); [|reflexivity].
    cbn [option_map]. now rewrite members_snoc_other.
Qed.

Lemma for_each_app {A S} (body : S -> A -> Result S) xs ys acc :
  for_each body (xs ++ ys) acc = rbind (for_each body xs acc) (for_each body ys).
Proof.
  revert acc. induction xs as [|x xs IH]; intros acc; simpl; [reflexivity|].
  destruct (body acc x); simpl; [apply IH|reflexivity].
Qed.

Lemma jagged_names_snoc ctx name c :
  Spec.jagged_names (ctx ++ [(name, c)]) =
    Spec.jagged_names ctx ++ (if is_jagged c then [name] else []).
Proof.
  unfold Spec.jagged_names. rewrite filter_app, map_app. simpl.
  destruct (is_jagged c); reflexivity.
Qed.

Lemma nonjagged_names_snoc ctx name c :
  Spec.nonjagged_names (ctx ++ [(name, c)]) =
    Spec.nonjagged_names ctx ++ (if is_jagged c then [] else [name]).
Proof.
  unfold Spec.nonjagged_names. rewrite filter_app, map_app. simpl.
  destruct (is_jagged c); reflexivity.
Qed.

(** The state of the clustering loop after an expression context. *)
Lemma partition_characterized arrays off ctx :
  Spec.well_formed arrays off ctx ->
  Ak.partition arrays ctx =
    Ok (Ak.mkPartition
          (Spec.nonjagged_names ctx)
          (Spec.first_seen (map off (Spec.jagged_names ctx)))
          (map (Spec.members off (Spec.jagged_names ctx))
               (Spec.first_seen (map off (Spec.jagged_names ctx))))).
Proof.
  unfold Ak.partition.
  induction ctx as [|[name c] ctx IH] using rev_ind; intros Hwf; [reflexivity|].
  rewrite for_each_app, IH
    by (intros n c' Hin; apply Hwf, in_or_app; now left).
  cbn [rbind for_each].
  destruct (Hwf name c) as (array & Harr & Hoff); [apply in_or_app; right; now left|].
  unfold Ak.partition_step, getitem. rewrite Harr. cbn [rbind].
  rewrite jagged_names_snoc, nonjagged_names_snoc.
  cbn [Ak.nonjagged Ak.offsets Ak.jaggeds].
  destruct (is_jagged c) eqn:Ej.
  - rewrite (Hoff eq_refl). cbn [rbind].
    rewrite map_app. cbn [map]. rewrite first_seen_snoc, app_nil_r.
    set (names := Spec.jagged_names ctx).
    set (fs := Spec.first_seen (map off names)).
    assert (Hnew : existsb (Spec.same_offsets (off name)) fs = false ->
                   map (Spec.members off (names ++ [name])) (fs ++ [off name])
                   = map (Spec.members off names) fs ++ [[name]]).
    { intros Hex. rewrite map_app, (map_members_no_match _ _ _ _ Hex).
      cbn [map]. rewrite members_snoc, same_offsets_refl.
      rewrite (members_unrepresented _ _ _ Hex). reflexivity. }
    destruct (Nat.eqb_spec (List.length fs) 0) as [E0|_].
    + destruct fs; [|discriminate E0]. cbn [existsb rbind].
      rewrite (Hnew eq_refl). reflexivity.
    + rewrite (place_members off names name fs (first_seen_distinct _)).
      destruct (existsb (Spec.same_offsets (off name)) fs) eqn:Hex; cbn [rbind].
      * reflexivity.
      * rewrite (Hnew eq_refl). reflexivity.
  - rewrite !app_nil_r. reflexivity.
Qed.

Lemma first_seen_app os more :
  exists added, Spec.first_seen (os ++ more) = Spec.first_seen os ++ added.
Proof.
  induction more as [|o more [added IH]] using rev_ind.
  - exists []. now rewrite !app_nil_r.
  - rewrite app_assoc, first_seen_snoc, IH.
    destruct (existsb _ _); [now exists added|].
    exists (added ++ [o]). now rewrite app_assoc.
Qed.

Lemma jagged_names_app ctx1 ctx2 :
  Spec.jagged_names (ctx1 ++ ctx2) = Spec.jagged_names ctx1 ++ Spec.jagged_names ctx2.
Proof. unfold Spec.jagged_names. now rewrite filter_app, map_app. Qed.

(** C5: the clustering succeeds on well-formed input; two jagged fields with
    the same offsets are in one cluster, whatever their names; the fields of
    one cluster all have the same offsets; the clusters' offsets are the
    distinct offsets in the order they are first seen, each cluster holding
    its members in order; and the clusters of a longer expression context
    begin with those of the shorter one, new ones being appended. *)
Theorem clusters_by_offsets arrays off ctx :
  Spec.well_formed arrays off ctx ->
  exists p,
    Ak.partition arrays ctx = Ok p
    /\ (forall n1 n2,
          In n1 (Spec.jagged_names ctx) -> In n2 (Spec.jagged_names ctx) ->
          Spec.same_offsets (off n1) (off n2) = true ->
          exists j, In j (Ak.jaggeds p) /\ In n1 j /\ In n2 j)
    /\ (forall j n1 n2,
          In j (Ak.jaggeds p) -> In n1 j -> In n2 j ->
          Spec.same_offsets (off n1) (off n2) = true)
    /\ Ak.offsets p = Spec.first_seen (map off (Spec.jagged_names ctx))
    /\ Ak.jaggeds p = map (Spec.members off (Spec.jagged_names ctx)) (Ak.offsets p)
    /\ (forall ctx1 ctx2, ctx = ctx1 ++ ctx2 ->
          exists p1 added,
            Ak.partition arrays ctx1 = Ok p1
            /\ Ak.offsets p = Ak.offsets p1 ++ added).
Proof.
  intros Hwf. eexists. split; [apply (partition_characterized _ _ _ Hwf)|].
  cbn [Ak.jaggeds Ak.offsets].
  set (names := Spec.jagged_names ctx).
  split; [|split; [|split; [reflexivity|split; [reflexivity|]]]].
  - intros n1 n2 H1 H2 Hsame.
    pose proof (first_seen_represents (off n1) (map off names) (in_map off _ _ H1)) as Hr.
    apply existsb_exists in Hr. destruct Hr as (r & Hr & Hn1).
    exists (Spec.members off names r). split; [now apply in_map|].
    unfold Spec.members. split; apply filter_In; split; try assumption.
    rewrite <- (same_offsets_congr _ _ r Hsame). exact Hn1.
  - intros j n1 n2 Hj H1 H2.
    apply in_map_iff in Hj. destruct Hj as (r & <- & _).
    unfold Spec.members in H1, H2.
    apply filter_In in H1, H2. destruct H1 as [_ H1], H2 as [_ H2].
    rewrite same_offsets_sym in H2. eapply same_offsets_trans; eassumption.
  - intros ctx1 ctx2 ->.
    assert (Hwf1 : Spec.well_formed arrays off ctx1)
      by (intros n c Hin; apply Hwf, in_or_app; now left).
    destruct (first_seen_app (map off (Spec.jagged_names ctx1))
                (map off (Spec.jagged_names ctx2))) as [added Hadd].
    eexists; exists added. split; [apply (partition_characterized _ _ _ Hwf1)|].
    cbn [Ak.offsets]. unfold names. now rewrite jagged_names_app, map_app.
Qed.

Lemma clusters_by_offsets_witness :
  let jag o b :=
    Ak.ListOffsetArray32 (Ak.Index32 (mkIntArray int32 o))
      (Ak.NumpyArray (Given (mkNdArray None [3] (Buf b))) []) [] in
  let arrays := [("muon_pt", jag [0; 2; 3]%Z 0); ("jet_pt", jag [0; 1; 3]%Z 1);
                 ("muon_eta", jag [0; 2; 3]%Z 2);
                 ("event_id", Ak.NumpyArray (Given (mkNdArray None [2] (Buf 3))) [])] in
  let ctx := [("muon_pt", mkContext true); ("jet_pt", mkContext true);
              ("event_id", mkContext false); ("muon_eta", mkContext true)] in
  let off name :=
    if String.eqb name "jet_pt" then Ak.Index32 (mkIntArray int32 [0; 1; 3]%Z)
    else Ak.Index32 (mkIntArray int32 [0; 2; 3]%Z) in
  exists p,
    Ak.partition arrays ctx = Ok p
    /\ (forall n1 n2,
          In n1 (Spec.jagged_names ctx) -> In n2 (Spec.jagged_names ctx) ->
          Spec.same_offsets (off n1) (off n2) = true ->
          exists j, In j (Ak.jaggeds p) /\ In n1 j /\ In n2 j)
    /\ (forall j n1 n2,
          In j (Ak.jaggeds p) -> In n1 j -> In n2 j ->
          Spec.same_offsets (off n1) (off n2) = true)
    /\ Ak.offsets p = Spec.first_seen (map off (Spec.jagged_names ctx))
    /\ Ak.jaggeds p = map (Spec.members off (Spec.jagged_names ctx)) (Ak.offsets p)
    /\ (forall ctx1 ctx2, ctx = ctx1 ++ ctx2 ->
          exists p1 added,
            Ak.partition arrays ctx1 = Ok p1
            /\ Ak.offsets p = Ak.offsets p1 ++ added).
Proof.
  intros jag arrays ctx off.
  apply (clusters_by_offsets arrays off ctx).
  intros name c Hin. simpl in Hin.
  destruct Hin as [E|[E|[E|[E|[]]]]]; injection E as <- <-;
    eexists; (split; [reflexivity|]); intros; try reflexivity; discriminate.
Defined.

(** ** Attaching the clusters *)

Lemma keys_dict_remove {V} (d : Dict V) c k :
  In k (keys (dict_remove d c)) <-> k <> c /\ In k (keys d).
Proof.
  induction d as [|[k' v'] d IH]; simpl; [tauto|].
  destruct (String.eqb_spec c k') as [->|Hne]; simpl; rewrite IH.
  - split; [tauto|]. intros [Hk [E|H]]; [congruence|tauto].
  - split; [|tauto]. intros [<-|H]; [split; [congruence|now left]|tauto].
Qed.

Lemma dict_get_remove_same {V} (d : Dict V) c : dict_get (dict_remove d c) c = None.
Proof.
  induction d as [|[k' v'] d IH]; simpl; [reflexivity|].
  destruct (String.eqb c k') eqn:E; [exact IH|]. simpl. now rewrite E.
Qed.

Lemma dict_get_remove_other {V} (d : Dict V) c k :
  k <> c -> dict_get (dict_remove d c) k = dict_get d k.
Proof.
  intros Hk. induction d as [|[k' v'] d IH]; simpl; [reflexivity|].
  destruct (String.eqb_spec c k') as [->|Hne]; simpl.
  - rewrite IH. destruct (String.eqb_spec k k'); [contradiction|reflexivity].
  - now rewrite IH.
Qed.

Lemma dict_get_app {V} (d1 d2 : Dict V) k :
  dict_get (d1 ++ d2) k =
    match dict_get d1 k with
    | Some v => Some v
    | None => dict_get d2 k
    end.
Proof.
  induction d1 as [|[k' v'] d1 IH]; simpl; [reflexivity|].
  destruct (String.eqb k k'); [reflexivity|exact IH].
Qed.

Lemma dict_remove_app {V} (d1 d2 : Dict V) c :
  dict_remove (d1 ++ d2) c = dict_remove d1 c ++ dict_remove d2 c.
Proof.
  induction d1 as [|[k' v'] d1 IH]; simpl; [reflexivity|].
  destruct (String.eqb c k'); [exact IH|]. simpl. now rewrite IH.
Qed.

Lemma dict_remove_idem {V} (d : Dict V) c :
  dict_remove (dict_remove d c) c = dict_remove d c.
Proof.
  induction d as [|[k' v'] d IH]; simpl; [reflexivity|].
  destruct (String.eqb c k') eqn:E; [exact IH|]. simpl. now rewrite E, IH.
Qed.

Lemma keys_attached fs c s k :
  In k (keys (Ak.attached fs c s)) <-> k = c \/ In k (keys fs).
Proof.
  unfold Ak.attached, keys. rewrite map_app, in_app_iff.
  fold (keys (dict_remove fs c)). rewrite keys_dict_remove. simpl.
  destruct (String.eqb_spec k c); intuition.
Qed.

Lemma dict_get_attached_same fs c s : dict_get (Ak.attached fs c s) c = Some s.
Proof.
  unfold Ak.attached. rewrite dict_get_app, dict_get_remove_same. simpl.
  now rewrite String.eqb_refl.
Qed.

Lemma dict_get_attached_other fs c s k :
  k <> c -> dict_get (Ak.attached fs c s) k = dict_get fs k.
Proof.
  intros Hk. unfold Ak.attached.
  rewrite dict_get_app, (dict_get_remove_other _ _ _ Hk). simpl.
  destruct (String.eqb_spec k c); [contradiction|].
  now destruct (dict_get fs k).
Qed.

Lemma attached_twice fs c s :
  Ak.attached (Ak.attached fs c s) c s = Ak.attached fs c s.
Proof.
  unfold Ak.attached. rewrite dict_remove_app, dict_remove_idem. simpl.
  rewrite String.eqb_refl. now rewrite app_nil_r.
Qed.

(** Attaching the same field once per member of the cluster attaches it
    once. *)
Lemma with_field_per_member fs dl c s (jagged : list string) :
  jagged <> [] ->
  for_each (fun o _ => Ak.with_field o s c) jagged (Ak.Zipped fs dl)
    = Ok (Ak.Zipped (Ak.attached fs c s) dl).
Proof.
  destruct jagged as [|x rest]; [congruence|]. intros _.
  cbn [for_each Ak.with_field rbind].
  induction rest as [|y rest IH]; [reflexivity|].
  cbn [for_each Ak.with_field rbind]. now rewrite attached_twice.
Qed.

(** *** The sub-record of a cluster *)

Lemma comprehension_keyed (arrays : Dict Ak.Layout) (g : string -> string) names :
  (forall n, In n names -> exists v, dict_get arrays n = Some v) ->
  exists pairs,
    comprehension (fun name => v <~ getitem arrays name ;; Ok (g name, v)) names
      = Ok pairs
    /\ map fst pairs = map g names.
Proof.
  induction names as [|n names IH]; intros H.
  - exists []. split; reflexivity.
  - destruct (H n (or_introl eq_refl)) as [v Hv].
    destruct IH as (pairs & Hp & Hk); [intros m Hm; apply H; now right|].
    exists ((g n, v) :: pairs). cbn [comprehension].
    unfold getitem in *. rewrite Hv. cbn [rbind]. rewrite Hp. cbn [rbind map fst].
    now rewrite Hk.
Qed.

Lemma cluster_record_names arrays number jagged :
  jagged <> [] ->
  (forall n, In n jagged -> exists v, dict_get arrays n = Some v) ->
  exists common subnames fs,
    Prefix.cluster_names number jagged = Ok (common, subnames)
    /\ Ak.cluster_record arrays number jagged = Ok (common, Ak.Zipped fs None)
    /\ forall k, In k (keys fs) <-> In k subnames.
Proof.
  intros Hne Hall. destruct jagged as [|first rest]; [congruence|].
  unfold Prefix.cluster_names, Ak.cluster_record.
  cbn [common_cut rbind].
  set (cut := scan first (first :: rest) (String.length first)).
  destruct (Nat.eqb cut 0).
  - destruct (comprehension_keyed arrays (fun n => n) _ Hall) as (pairs & Hp & Hk).
    unfold pairs_by_name. rewrite Hp. cbn [rbind].
    do 3 eexists. split; [reflexivity|]. split; [reflexivity|].
    intros k. rewrite keys_dict_of, Hk, map_id. reflexivity.
  - destruct (comprehension_keyed arrays
                (fun name => strip separators (slice_from cut name)) _ Hall)
      as (pairs & Hp & Hk).
    rewrite Hp. cbn [rbind].
    do 3 eexists. split; [reflexivity|]. split; [reflexivity|].
    intros k. rewrite keys_dict_of, Hk. reflexivity.
Qed.

(** *** The loop over the clusters *)

Lemma attach_step arrays out n j c s :
  Spec.shaped out -> j <> [] ->
  Ak.cluster_record arrays n j = Ok (c, s) ->
  Ak.attach arrays out (n, j)
    = Ok (Some (Ak.Zipped (Ak.attached (Ak.top_fields out) c s) (Some 1))).
Proof.
  intros Hout Hj Hrec. unfold Ak.attach. rewrite Hrec. cbn [rbind].
  destruct Hout as [->|[fs ->]]; [reflexivity|].
  rewrite (with_field_per_member fs (Some 1) c s j Hj). reflexivity.
Qed.

Lemma attach_loop arrays njs : forall out,
  Spec.shaped out ->
  (forall n j, In (n, j) njs ->
     j <> [] /\ exists c s, Ak.cluster_record arrays n j = Ok (c, s)) ->
  exists out',
    for_each (Ak.attach arrays) njs out = Ok out'
    /\ Spec.shaped out'
    /\ (njs <> [] -> out' <> None)
    /\ (njs = [] -> out' = out)
    /\ (forall f, In f (keys (Ak.top_fields out'))
                  <-> In f (keys (Ak.top_fields out))
                      \/ exists n j c s,
                           In (n, j) njs
                           /\ Ak.cluster_record arrays n j = Ok (c, s) /\ f = c)
    /\ (forall k,
          (forall n j c s, In (n, j) njs ->
             Ak.cluster_record arrays n j = Ok (c, s) -> c <> k) ->
          dict_get (Ak.top_fields out') k = dict_get (Ak.top_fields out) k)
    /\ (forall before n j after c s,
          njs = before ++ (n, j) :: after ->
          Ak.cluster_record arrays n j = Ok (c, s) ->
          (forall n' j' c' s', In (n', j') after ->
             Ak.cluster_record arrays n' j' = Ok (c', s') -> c' <> c) ->
          dict_get (Ak.top_fields out') c = Some s).
Proof.
  induction njs as [|[n j] njs IH]; intros out Hout Hall.
  - exists out. cbn [for_each]. split; [reflexivity|]. split; [exact Hout|].
    split; [congruence|]. split; [reflexivity|]. split; [|split].
    + intros f. split; [tauto|]. intros [H|(n & j & c & s & [] & _)]. exact H.
    + reflexivity.
    + intros [|? ?] ? ? ? ? ? E; discriminate E.
  - destruct (Hall n j (or_introl eq_refl)) as [Hj (c & s & Hrec)].
    destruct (IH (Some (Ak.Zipped (Ak.attached (Ak.top_fields out) c s) (Some 1))))
      as (out' & Hrun & Hshape & Hsome & _ & F1 & F3 & F2).
    { right. eexists. reflexivity. }
    { intros n' j' Hin. apply Hall. now right. }
    exists out'. cbn [for_each]. rewrite (attach_step arrays out n j c s Hout Hj Hrec).
    cbn [rbind]. split; [exact Hrun|]. split; [exact Hshape|].
    split.
    { intros _ E. subst out'. destruct njs as [|x njs'].
      - cbn [for_each] in Hrun. discriminate Hrun.
      - now apply Hsome. }
    split; [discriminate|]. cbn [Ak.top_fields] in F1, F3, F2.
    split; [|split].
    + intros f. rewrite F1, keys_attached. split.
      * intros [[->|H]|(n' & j' & c' & s' & Hin & Hr & ->)].
        -- right. exists n, j, c, s. split; [now left|]. split; [exact Hrec|reflexivity].
        -- now left.
        -- right. exists n', j', c', s'. split; [now right|]. split; [exact Hr|reflexivity].
      * intros [H|(n' & j' & c' & s' & [E|Hin] & Hr & ->)].
        -- left. now right.
        -- injection E as <- <-. rewrite Hrec in Hr. injection Hr as <- <-.
           left. now left.
        -- right. exists n', j', c', s'. split; [exact Hin|]. split; [exact Hr|reflexivity].
    + intros k Hk. rewrite F3.
      * apply dict_get_attached_other. intros ->.
        exact (Hk n j c s (or_introl eq_refl) Hrec eq_refl).
      * intros n' j' c' s' Hin. apply Hk. now right.
    + intros before n0 j0 after c0 s0 Esplit Hr0 Hafter.
      destruct before as [|b before]; cbn [app] in Esplit.
      * injection Esplit as <- <- <-. rewrite Hrec in Hr0. injection Hr0 as <- <-.
        rewrite F3; [apply dict_get_attached_same|].
        intros n' j' c' s' Hin Hr'. exact (Hafter n' j' c' s' Hin Hr').
      * injection Esplit as _ ->.
        exact (F2 before n0 j0 after c0 s0 eq_refl Hr0 Hafter).
Qed.

(** *** [group(how="zip")] as a whole *)

Lemma enumerate_from_In {A} (l : list A) : forall start n x,
  In (n, x) (enumerate_from start l) -> In x l.
Proof.
  induction l as [|y l IH]; intros start n x; cbn [enumerate_from]; [tauto|].
  intros [E|H]; [injection E as _ ->; now left|right; eapply IH; eassumption].
Qed.

Lemma jagged_names_in_ctx ctx n :
  In n (Spec.jagged_names ctx) -> In (n, mkContext true) ctx.
Proof.
  unfold Spec.jagged_names. intros H. apply in_map_iff in H.
  destruct H as ([n' [b]] & <- & H). apply filter_In in H.
  destruct H as [H Hb]. simpl in Hb. now subst b.
Qed.

Lemma nonjagged_names_in_ctx ctx n :
  In n (Spec.nonjagged_names ctx) -> In (n, mkContext false) ctx.
Proof.
  unfold Spec.nonjagged_names. intros H. apply in_map_iff in H.
  destruct H as ([n' [b]] & <- & H). apply filter_In in H.
  destruct H as [H Hb]. simpl in Hb. destruct b; [discriminate|exact H].
Qed.

Lemma cluster_members_jagged off names j :
  In j (map (Spec.members off names) (Spec.first_seen (map off names))) ->
  j <> [] /\ forall n, In n j -> In n names.
Proof.
  intros H. apply in_map_iff in H. destruct H as (r & <- & Hr).
  split.
  - apply first_seen_In, in_map_iff in Hr. destruct Hr as (n0 & <- & Hn0).
    intros E.
    assert (Hin : In n0 (Spec.members off names (off n0)))
      by (apply filter_In; split; [exact Hn0|apply same_offsets_refl]).
    rewrite E in Hin. exact Hin.
  - intros n Hn. apply filter_In in Hn. tauto.
Qed.

(** C4, as stated, fails: with no field at all the result is [None], not a
    record. *)
Lemma group_zip_of_nothing :
  fst (Ak.group [] [] (how_str "zip") (mkWorld ["awkward1"] ["numpy"] 0))
    = Ok PyNone
  /\ ~ (exists record,
          fst (Ak.group [] [] (how_str "zip") (mkWorld ["awkward1"] ["numpy"] 0))
            = Ok (Native record)).
Proof.
  split; [reflexivity|]. intros [record H]. discriminate H.
Qed.

(** C4, amended: for an expression context with at least one field (all
    fields among the arrays, the jagged ones with offsets), the result is one
    record zipped at depth one; its top-level field names are exactly the
    non-jagged names and the clusters' common names; each cluster's
    sub-record has the cluster's keys as fields, and is the field under the
    cluster's common name unless a later cluster has the same common name.
    For [muon_pt] and [muon_eta] with the same offsets and the flat
    [event_id], the fields are [event_id] and [muon], the latter a record
    of [pt] and [eta]. *)
Theorem group_zip_fields arrays off ctx w :
  available "awkward1" w = true ->
  Spec.well_formed arrays off ctx ->
  ctx <> [] ->
  exists p top,
    Ak.partition arrays ctx = Ok p
    /\ fst (Ak.group arrays ctx (how_str "zip") w)
       = Ok (Native (Ak.Zipped top (Some 1)))
    /\ (forall f, In f (keys top)
                  <-> In f (Spec.nonjagged_names ctx)
                      \/ exists n j c s,
                           In (n, j) (enumerate (Ak.jaggeds p))
                           /\ Ak.cluster_record arrays n j = Ok (c, s) /\ f = c)
    /\ (forall n j, In (n, j) (enumerate (Ak.jaggeds p)) ->
          exists c subnames fs,
            Prefix.cluster_names n j = Ok (c, subnames)
            /\ Ak.cluster_record arrays n j = Ok (c, Ak.Zipped fs None)
            /\ forall k, In k (keys fs) <-> In k subnames)
    /\ (forall before n j after c s,
          enumerate (Ak.jaggeds p) = before ++ (n, j) :: after ->
          Ak.cluster_record arrays n j = Ok (c, s) ->
          (forall n' j' c' s', In (n', j') after ->
             Ak.cluster_record arrays n' j' = Ok (c', s') -> c' <> c) ->
          dict_get top c = Some s)
    /\ fst (Ak.group Spec.muon_arrays Spec.muon_context (how_str "zip") w)
       = Ok (Native
               (Ak.Zipped
                  [("event_id", Spec.event_id);
                   ("muon", Ak.Zipped [("pt", Spec.muon_pt); ("eta", Spec.muon_eta)]
                              None)]
                  (Some 1))).
Proof.
  intros Hav Hwf Hctx.
  pose proof (partition_characterized arrays off ctx Hwf) as Hp.
  set (names := Spec.jagged_names ctx) in *.
  set (clusters := map (Spec.members off names) (Spec.first_seen (map off names))) in *.
  set (p := Ak.mkPartition (Spec.nonjagged_names ctx)
              (Spec.first_seen (map off names)) clusters) in *.
  (* every cluster can be named and zipped *)
  assert (Hclusters : forall n j, In (n, j) (enumerate clusters) ->
            j <> [] /\ forall m, In m j -> exists v, dict_get arrays m = Some v).
  { intros n j Hin. apply enumerate_from_In in Hin.
    destruct (cluster_members_jagged off names j Hin) as [Hne Hsub].
    split; [exact Hne|]. intros m Hm.
    destruct (Hwf m (mkContext true) (jagged_names_in_ctx _ _ (Hsub m Hm)))
      as (v & Hv & _). now exists v. }
  (* the record of the non-jagged fields *)
  assert (Hout0 : exists out0,
            (if negb (Nat.eqb (List.length (Spec.nonjagged_names ctx)) 0) then
               pairs <~ pairs_by_name arrays (Spec.nonjagged_names ctx) ;;
               Ok (Some (Ak.zip (dict_of pairs) (Some 1)))
             else Ok None) = Ok out0
            /\ Spec.shaped out0
            /\ (Spec.nonjagged_names ctx <> [] -> out0 <> None)
            /\ forall f, In f (keys (Ak.top_fields out0))
                         <-> In f (Spec.nonjagged_names ctx)).
  { destruct (Spec.nonjagged_names ctx) as [|n0 flat] eqn:Eflat.
    - exists None. cbn. split; [reflexivity|]. split; [now left|].
      split; [congruence|]. tauto.
    - destruct (comprehension_keyed arrays (fun n => n) (n0 :: flat))
        as (pairs & Hpairs & Hk).
      { intros m Hm. rewrite <- Eflat in Hm.
        destruct (Hwf m _ (nonjagged_names_in_ctx _ _ Hm)) as (v & Hv & _).
        now exists v. }
      exists (Some (Ak.zip (dict_of pairs) (Some 1))).
      cbn [List.length Nat.eqb negb]. unfold pairs_by_name. rewrite Hpairs.
      cbn [rbind]. split; [reflexivity|]. split; [right; eexists; reflexivity|].
      split; [discriminate|].
      intros f. unfold Ak.zip. cbn [Ak.top_fields].
      rewrite keys_dict_of, Hk, map_id. reflexivity. }
  destruct Hout0 as (out0 & Hout0 & Hshape0 & Hsome0 & Hkeys0).
  destruct (attach_loop arrays (enumerate clusters) out0 Hshape0)
    as (out' & Hrun & Hshape & Hsome & Hsame & F1 & _ & F2).
  { intros n j Hin. destruct (Hclusters n j Hin) as [Hne Hall].
    split; [exact Hne|].
    destruct (cluster_record_names arrays n j Hne Hall) as (c & _ & fs & _ & Hr & _).
    now exists c, (Ak.Zipped fs None). }
  assert (Hzip : Ak.group_zip arrays ctx = Ok out').
  { unfold Ak.group_zip. rewrite Hp. unfold p.
    cbn [rbind Ak.nonjagged Ak.jaggeds].
    rewrite Hout0. cbn [rbind]. exact Hrun. }
  assert (Hnot : out' <> None).
  { destruct (enumerate clusters) as [|x l] eqn:Eenum.
    - rewrite (Hsame eq_refl). apply Hsome0.
      destruct ctx as [|[n0 [b]] ctx']; [congruence|].
      destruct b.
      + exfalso. unfold clusters, names, enumerate in Eenum.
        unfold Spec.jagged_names in Eenum. cbn in Eenum. discriminate Eenum.
      + unfold Spec.nonjagged_names. cbn. discriminate.
    - apply Hsome. discriminate. }
  destruct Hshape as [->|[top ->]]; [congruence|].
  exists p, top. split; [exact Hp|].
  split.
  { unfold Ak.group. imported_ok Awkward Hav. rewrite Hzip. reflexivity. }
  cbn [Ak.top_fields Ak.jaggeds p] in *.
  split.
  { intros f. rewrite F1, Hkeys0. reflexivity. }
  split.
  { intros n j Hin. destruct (Hclusters n j Hin) as [Hne Hall].
    exact (cluster_record_names arrays n j Hne Hall). }
  split; [exact F2|].
  unfold Ak.group. imported_ok Awkward Hav. reflexivity.
Qed.

Lemma group_zip_fields_witness :
  fst (Ak.group Spec.muon_arrays Spec.muon_context (how_str "zip")
         (mkWorld ["awkward1"] ["numpy"] 0))
    = Ok (Native
            (Ak.Zipped
               [("event_id", Spec.event_id);
                ("muon", Ak.Zipped [("pt", Spec.muon_pt); ("eta", Spec.muon_eta)]
                           None)]
               (Some 1))).
Proof.
  destruct (group_zip_fields Spec.muon_arrays
              (fun _ => Ak.Index32 (mkIntArray int32 [0; 2; 3]%Z))
              Spec.muon_context (mkWorld ["awkward1"] ["numpy"] 0))
    as (p & top & _ & _ & _ & _ & _ & H).
  - reflexivity.
  - intros name c Hin. simpl in Hin.
    destruct Hin as [E|[E|[E|[]]]]; injection E as <- <-;
      eexists; (split; [reflexivity|]); intros; try reflexivity; discriminate.
  - discriminate.
  - exact H.
Defined.

(** * Further properties of the code *)

(** ** The registry: instances, classes and [__eq__] *)

Lemma spelled_concrete s c : spelled s = Some c -> c <> Library.
Proof.
  unfold spelled. intros H. apply find_some in H. destruct H as [H _].
  simpl in H. intros ->. intuition discriminate.
Qed.

(** X1: an instance of a concrete library class, registered or not, and the
    class itself, resolve to the registered instance of that class; the base
    class has no name and raises [AttributeError]; and what a string
    resolves to resolves to itself. *)
Theorem regularize_library_instances (o : Instance) (s : string) :
  _regularize_library (an_instance o) =
    match class_of o with
    | Library => Raise (AttributeError "name")
    | c => Ok (Registered c)
    end
  /\ _regularize_library (a_class (class_of o)) = _regularize_library (an_instance o)
  /\ match _regularize_library (a_string s) with
     | Ok r => _regularize_library (an_instance r) = Ok r
     | Raise _ => True
     end.
Proof.
  split; [|split].
  - destruct o as [[]|[] id]; vm_compute; reflexivity.
  - destruct o as [[]|[] id]; vm_compute; reflexivity.
  - rewrite regularize_library_string.
    destruct (spelled s) as [c|] eqn:E; [|exact I].
    apply spelled_concrete in E. destruct c; [congruence|vm_compute; reflexivity..].
Qed.

(** X2: [__eq__] on two library instances raises [AttributeError] when one
    of them is of the base class, and otherwise tells whether they are of
    the same class; it holds exactly when both resolve to the same
    registered instance. *)
Theorem eq_same_class (a b : Instance) :
  eq_ a b =
    match class_of a, class_of b with
    | Library, _ | _, Library => Raise (AttributeError "name")
    | ca, cb => Ok (Shape.class_eqb ca cb)
    end
  /\ (eq_ a b = Ok true
      <-> exists r, _regularize_library (an_instance a) = Ok r
                    /\ _regularize_library (an_instance b) = Ok r).
Proof.
  assert (Heq : eq_ a b =
                  match class_of a, class_of b with
                  | Library, _ | _, Library => Raise (AttributeError "name")
                  | ca, cb => Ok (Shape.class_eqb ca cb)
                  end)
    by (destruct a as [[]|[] ?], b as [[]|[] ?]; vm_compute; reflexivity).
  split; [exact Heq|].
  rewrite Heq.
  assert (Hreg : forall o, _regularize_library (an_instance o) =
                           match class_of o with
                           | Library => Raise (AttributeError "name")
                           | c => Ok (Registered c)
                           end)
    by (intros [[]|[] ?]; vm_compute; reflexivity).
  rewrite !Hreg.
  destruct (class_of a), (class_of b); cbn [Shape.class_eqb]; split;
    try discriminate; try (intros _; eexists; split; reflexivity);
    intros (r & H1 & H2); try discriminate; congruence.
Qed.

(** ** [group]: what is refused, and what is missing *)

(** X3: [Library.group] (NumPy, CuPy) refuses every string and every other
    unknown [how] with a [TypeError] that names the library;
    [Awkward.group] refuses every string but [zip] and every other unknown
    [how]; [Pandas.group] refuses unknown [how] values that are not strings,
    and hands every string on to the merge.  None of them looks at the
    arrays before refusing. *)
Theorem unsupported_how V (self : Class) (n s s_ak : string) (w : World)
    (arrays : Dict V) (ak_arrays : Dict Ak.Layout) (pd_arrays : Dict Pd.PdObject)
    (merged : Dict Pd.PdObject -> list string -> How -> M (Aggregate Pd.PdObject))
    (ctx : ExpressionContext) :
  name self = Ok n ->
  available "awkward1" w = true ->
  available "pandas" w = true ->
  String.eqb s_ak "zip" = false ->
  (Library_group self arrays ctx (how_str s)
     = Raise (TypeError (Text ("for library " ++ n ++
                ", how must be tuple, list, dict, or None (for dict)")%string))
   /\ Library_group self arrays ctx how_other
     = Raise (TypeError (Text ("for library " ++ n ++
                ", how must be tuple, list, dict, or None (for dict)")%string)))
  /\ fst (Ak.group ak_arrays ctx (how_str s_ak) w)
     = Raise (TypeError (Ak.how_message "ak"))
  /\ fst (Ak.group ak_arrays ctx how_other w) = Raise (TypeError (Ak.how_message "ak"))
  /\ fst (Pd.group merged pd_arrays ctx how_other w)
     = Raise (TypeError (Pd.how_message "pd"))
  /\ Pd.group merged pd_arrays ctx (how_str s) w
     = merged pd_arrays (map fst ctx) (how_str s) (snd (imported Pandas w)).
Proof.
  intros Hn Hak Hpd Hs.
  split; [unfold Library_group; rewrite Hn; split; reflexivity|].
  split; [|split; [|split]].
  - unfold Ak.group. imported_ok Awkward Hak. now rewrite Hs.
  - unfold Ak.group. imported_ok Awkward Hak. reflexivity.
  - unfold Pd.group. imported_ok Pandas Hpd. reflexivity.
  - unfold Pd.group. imported_ok Pandas Hpd. reflexivity.
Qed.

Lemma unsupported_how_witness :
  let w := mkWorld ["awkward1"; "pandas"] ["numpy"] 0 in
  let merged := fun (_ : Dict Pd.PdObject) (_ : list string) (_ : How) =>
                  raise (A := Aggregate Pd.PdObject) NotImplementedError in
  let ctx : ExpressionContext := [("x", mkContext false)] in
  (Library_group (V := nat) CuPy [] ctx (how_str "zip")
     = Raise (TypeError (Text ("for library " ++ "cp" ++
                ", how must be tuple, list, dict, or None (for dict)")%string))
   /\ Library_group (V := nat) CuPy [] ctx how_other
     = Raise (TypeError (Text ("for library " ++ "cp" ++
                ", how must be tuple, list, dict, or None (for dict)")%string)))
  /\ fst (Ak.group [] ctx (how_str "median") w)
     = Raise (TypeError (Ak.how_message "ak"))
  /\ fst (Ak.group [] ctx how_other w) = Raise (TypeError (Ak.how_message "ak"))
  /\ fst (Pd.group merged [] ctx how_other w)
     = Raise (TypeError (Pd.how_message "pd"))
  /\ Pd.group merged [] ctx (how_str "zip") w
     = merged [] (map fst ctx) (how_str "zip") (snd (imported Pandas w)).
Proof.
  intros w merged ctx.
  apply (unsupported_how nat CuPy "cp" "zip" "median" w [] [] [] merged ctx);
    reflexivity.
Defined.

Lemma comprehension_first_missing {V} (arrays : Dict V) names k :
  Shape.first_missing arrays names = Some k ->
  comprehension (getitem arrays) names = Raise (KeyError k)
  /\ pairs_by_name arrays names = Raise (KeyError k).
Proof.
  unfold pairs_by_name.
  induction names as [|n names IH]; cbn [Shape.first_missing]; [discriminate|].
  intros H. cbn [comprehension]. unfold getitem in *.
  destruct (dict_get arrays n) as [v|].
  - destruct (IH H) as [-> ->]. split; reflexivity.
  - injection H as <-. split; reflexivity.
Qed.

Lemma by_context_names {V} (arrays : Dict V) ctx :
  by_context arrays ctx = comprehension (getitem arrays) (map fst ctx).
Proof.
  unfold by_context. induction ctx as [|nc ctx IH]; cbn [comprehension map];
    [reflexivity|now rewrite IH].
Qed.

Lemma pairs_by_context_names {V} (arrays : Dict V) ctx :
  pairs_by_context arrays ctx = pairs_by_name arrays (map fst ctx).
Proof.
  unfold pairs_by_context, pairs_by_name.
  induction ctx as [|nc ctx IH]; cbn [comprehension map];
    [reflexivity|now rewrite IH].
Qed.

(** X4: when some name of the expression context has no array, the
    re-projections of every library raise [KeyError] for the first such
    name, by [how=tuple], [how=list] and [how=dict] alike. *)
Theorem group_missing_field V (self : Class) (w : World) (k k_ak k_pd : string)
    (merged : Dict Pd.PdObject -> list string -> How -> M (Aggregate Pd.PdObject))
    (ctx : ExpressionContext)
    (arrays : Dict V) (ak_arrays : Dict Ak.Layout) (pd_arrays : Dict Pd.PdObject)
    (how : How) :
  available "awkward1" w = true ->
  available "pandas" w = true ->
  how = how_tuple \/ how = how_list \/ how = how_dict ->
  Shape.first_missing arrays (map fst ctx) = Some k ->
  Shape.first_missing ak_arrays (map fst ctx) = Some k_ak ->
  Shape.first_missing pd_arrays (map fst ctx) = Some k_pd ->
  Library_group self arrays ctx how = Raise (KeyError k)
  /\ fst (Ak.group ak_arrays ctx how w) = Raise (KeyError k_ak)
  /\ fst (Pd.group merged pd_arrays ctx how w) = Raise (KeyError k_pd).
Proof.
  intros Hak Hpd Hhow Hk Hkak Hkpd.
  destruct (comprehension_first_missing _ _ _ Hk) as [H1 H2].
  destruct (comprehension_first_missing _ _ _ Hkak) as [A1 A2].
  destruct (comprehension_first_missing _ _ _ Hkpd) as [P1 P2].
  split; [|split].
  - unfold Library_group. rewrite by_context_names, pairs_by_context_names, H1, H2.
    destruct Hhow as [->|[->| ->]]; reflexivity.
  - unfold Ak.group. imported_ok Awkward Hak.
    rewrite by_context_names, pairs_by_context_names, A1, A2.
    destruct Hhow as [->|[->| ->]]; reflexivity.
  - unfold Pd.group. imported_ok Pandas Hpd. rewrite P1, P2.
    destruct Hhow as [->|[->| ->]]; reflexivity.
Qed.

Lemma group_missing_field_witness :
  let w := mkWorld ["awkward1"; "pandas"] ["numpy"] 0 in
  let merged := fun (_ : Dict Pd.PdObject) (_ : list string) (_ : How) =>
                  raise (A := Aggregate Pd.PdObject) NotImplementedError in
  let ctx := [("x", mkContext false); ("y", mkContext false); ("z", mkContext true)] in
  Library_group NumPy [("x", 1)] ctx how_list = Raise (KeyError "y")
  /\ fst (Ak.group [("x", Spec.event_id); ("y", Spec.event_id)] ctx how_list w)
     = Raise (KeyError "z")
  /\ fst (Pd.group merged [] ctx how_list w) = Raise (KeyError "x").
Proof.
  intros w merged ctx.
  apply (group_missing_field nat NumPy w "y" "z" "x" merged ctx
           [("x", 1)] [("x", Spec.event_id); ("y", Spec.event_id)] [] how_list);
    try reflexivity. right; left; reflexivity.
Defined.

(** ** A missing dependency *)

Lemma imported_missing c module hint w :
  dependency c = Some (module, hint) ->
  available module w = false ->
  imported c w =
    (Raise (ImportError hint),
     mkWorld (installed w) (sys_modules w) (S (acquisitions w))).
Proof.
  intros Hd Ha. unfold available in Ha. apply orb_false_iff in Ha.
  destruct Ha as [Hl Hi].
  rewrite (imported_unloaded _ _ _ _ Hd Hl), Hi. reflexivity.
Qed.

(** X5: when the optional dependency of Awkward, Pandas or CuPy is neither
    loaded nor installed, every method of that library that reads
    [imported] ([finalize], [group], [_only_series], [CuPy.empty]) raises the
    [ImportError] with the install hint, whatever its arguments: before an
    unsupported array, a missing field or an unknown [how] is noticed. *)
Theorem missing_dependency_first (c : Class) (module : string) (hint : Message)
    (w : World) (array : Array) (how : How) (ctx : ExpressionContext)
    (ak_arrays : Dict Ak.Layout) (pd_arrays : Dict Pd.PdObject)
    (merged : Dict Pd.PdObject -> list string -> How -> M (Aggregate Pd.PdObject))
    (names : list string) (is_cupy_ndarray : NdArray -> bool)
    (shape : list nat) (dtype : DType) :
  dependency c = Some (module, hint) ->
  available module w = false ->
  match c with
  | Awkward =>
      fst (Ak.finalize array w) = Raise (ImportError hint)
      /\ fst (Ak.group ak_arrays ctx how w) = Raise (ImportError hint)
  | Pandas =>
      fst (Pd.finalize array w) = Raise (ImportError hint)
      /\ fst (Pd.group merged pd_arrays ctx how w) = Raise (ImportError hint)
      /\ fst (Columns._only_series pd_arrays names w) = Raise (ImportError hint)
  | CuPy =>
      fst (Cp.finalize is_cupy_ndarray array w) = Raise (ImportError hint)
      /\ fst (Cp.empty shape dtype w) = Raise (ImportError hint)
  | _ => False
  end.
Proof.
  intros Hd Ha. pose proof (imported_missing c _ _ w Hd Ha) as Hi.
  destruct c; try discriminate Hd.
  - unfold Ak.finalize, Ak.group, bind. rewrite Hi. split; reflexivity.
  - unfold Pd.finalize, Pd.group, Columns._only_series, bind. rewrite Hi.
    repeat split; reflexivity.
  - unfold Cp.finalize, Cp.empty, bind. rewrite Hi. split; reflexivity.
Qed.

Lemma missing_dependency_first_witness :
  let w := mkWorld ["awkward1"] ["numpy"] 0 in
  let merged := fun (_ : Dict Pd.PdObject) (_ : list string) (_ : How) =>
                  raise (A := Aggregate Pd.PdObject) NotImplementedError in
  fst (Pd.finalize (ObjectArray (Buf 0)) w) = Raise (ImportError pandas_hint)
  /\ fst (Pd.group merged [] [("x", mkContext false)] how_other w)
     = Raise (ImportError pandas_hint)
  /\ fst (Columns._only_series [] ["x"] w) = Raise (ImportError pandas_hint).
Proof.
  intros w merged.
  apply (missing_dependency_first Pandas "pandas" pandas_hint w
           (ObjectArray (Buf 0)) how_other [("x", mkContext false)] [] [] merged
           ["x"] (fun _ => true) [] int32); reflexivity.
Defined.

(** ** [Awkward.finalize]: the other branches *)

Lemma regular_sizes_fold sizes : forall out,
  Shape.regular_sizes (fold_left Ak.RegularArray sizes out)
    = rev sizes ++ Shape.regular_sizes out
  /\ Shape.regular_core (fold_left Ak.RegularArray sizes out)
     = Shape.regular_core out.
Proof.
  induction sizes as [|size sizes IH]; intros out; cbn [fold_left rev].
  - split; reflexivity.
  - destruct (IH (Ak.RegularArray out size)) as [-> ->].
    cbn [Shape.regular_sizes Shape.regular_core]. split; [|reflexivity].
    now rewrite <- app_assoc.
Qed.

(** X7: a flat array with a structured element type becomes, on the Awkward
    library, a record array with one content per subfield (keyed by the
    subfield names, with the array's length), wrapped in one regular
    dimension per trailing dimension of the shape, the outermost wrapper
    having the first trailing size; an array without a shape raises
    [IndexError]. *)
Theorem finalize_structured_nesting a dnames w :
  available "awkward1" w = true ->
  dtype_names a = Some dnames ->
  match shape a with
  | [] => fst (Ak.finalize (Flat a) w) = Raise IndexError
  | length :: extra =>
      exists layout,
        fst (Ak.finalize (Flat a) w) = Ok layout
        /\ Shape.regular_sizes layout = extra
        /\ Shape.regular_core layout
           = Ak.RecordArray (map (fun n => Ak.NumpyArray (FlatField a n) []) dnames)
               dnames length
  end.
Proof.
  intros Ha Hn. unfold Ak.finalize. imported_ok Awkward Ha. rewrite Hn.
  destruct (shape a) as [|length extra]; [reflexivity|].
  eexists. split; [reflexivity|].
  destruct (regular_sizes_fold (rev extra)
              (Ak.RecordArray (map (fun n => Ak.NumpyArray (FlatField a n) []) dnames)
                 dnames length)) as [H1 H2].
  rewrite H1, H2, rev_involutive. cbn. split; [apply app_nil_r|reflexivity].
Qed.

Lemma finalize_structured_nesting_witness :
  exists layout,
    fst (Ak.finalize (Flat (mkNdArray (Some ["x"; "y"]) [5; 2; 3] (Buf 0)))
           (mkWorld ["awkward1"] ["numpy"] 0)) = Ok layout
    /\ Shape.regular_sizes layout = [2; 3]
    /\ Shape.regular_core layout
       = Ak.RecordArray
           (map (fun n => Ak.NumpyArray
                            (FlatField (mkNdArray (Some ["x"; "y"]) [5; 2; 3] (Buf 0)) n) [])
                ["x"; "y"])
           ["x"; "y"] 5.
Proof.
  apply (finalize_structured_nesting
           (mkNdArray (Some ["x"; "y"]) [5; 2; 3] (Buf 0)) ["x"; "y"]
           (mkWorld ["awkward1"] ["numpy"] 0)); reflexivity.
Defined.

(** ** [Pandas.finalize]: a plain element type *)

(** X8: a flat array with a plain element type becomes, on the Pandas
    library, a series when it has one dimension, and otherwise a table with
    one column per combination of trailing-dimension indices, named by the
    bracketed indices alone (no colon, no subfield), in the order of
    [itertools.product]. *)
Theorem finalize_plain_columns a length extra w :
  available "pandas" w = true ->
  dtype_names a = None ->
  shape a = length :: extra ->
  match extra with
  | [] => fst (Pd.finalize (Flat a) w) = Ok (Pd.Series (Pd.Values a) Pd.RangeIndex)
  | _ =>
      exists data,
        fst (Pd.finalize (Flat a) w)
          = Ok (Pd.DataFrame data
                  (map Pd.brackets (Pd.product (map Pd.range extra))))
        /\ (forall k, In k (keys data)
                      <-> In k (map Pd.brackets (Pd.product (map Pd.range extra))))
        /\ List.length (map Pd.brackets (Pd.product (map Pd.range extra)))
           = fold_right Nat.mul 1 extra
  end.
Proof.
  intros Ha Hn Hs. unfold Pd.finalize. imported_ok Pandas Ha.
  rewrite Hn, Hs. cbn [tl List.length].
  destruct extra as [|d extra]; [reflexivity|].
  cbn [Nat.eqb negb ret fst].
  destruct (fold_add_column Pd.brackets (fun tup => At a tup)
              (Pd.product (map Pd.range (d :: extra))) ([], [])) as [H1 H2].
  cbn [fst snd app] in H1, H2.
  eexists. split; [rewrite <- H1; reflexivity|]. split.
  - intros k. rewrite H2. simpl. intuition.
  - now rewrite length_map, product_length.
Qed.

Lemma finalize_plain_columns_witness :
  exists data,
    fst (Pd.finalize (Flat (mkNdArray None [5; 2; 2] (Buf 0)))
           (mkWorld ["pandas"] ["numpy"] 0))
      = Ok (Pd.DataFrame data (map Pd.brackets (Pd.product (map Pd.range [2; 2]))))
    /\ (forall k, In k (keys data)
                  <-> In k (map Pd.brackets (Pd.product (map Pd.range [2; 2]))))
    /\ List.length (map Pd.brackets (Pd.product (map Pd.range [2; 2])))
       = fold_right Nat.mul 1 [2; 2].
Proof.
  apply (finalize_plain_columns (mkNdArray None [5; 2; 2] (Buf 0)) 5 [2; 2]
           (mkWorld ["pandas"] ["numpy"] 0)); reflexivity.
Defined.

(** ** [group]: the values of the mapping *)

Lemma dict_get_dict_set {V} (d : Dict V) k v k' :
  dict_get (dict_set d k v) k' = if String.eqb k' k then Some v else dict_get d k'.
Proof.
  induction d as [|[k0 v0] d IH]; cbn [dict_set dict_get]; [reflexivity|].
  destruct (String.eqb_spec k k0) as [->|Hne]; cbn [dict_get].
  - destruct (String.eqb k' k0); reflexivity.
  - rewrite IH. destruct (String.eqb_spec k' k0) as [->|]; [|reflexivity].
    destruct (String.eqb_spec k0 k); [congruence|reflexivity].
Qed.

Lemma dict_get_keys {V} (d : Dict V) k :
  In k (keys d) <-> exists v, dict_get d k = Some v.
Proof.
  induction d as [|[k0 v0] d IH]; cbn [keys map dict_get fst In].
  - split; [tauto|intros [v H]; discriminate].
  - destruct (String.eqb_spec k k0) as [->|Hne].
    + split; [eauto|tauto].
    + rewrite <- IH. unfold keys. intuition congruence.
Qed.

Lemma dict_of_values {V} (f : string -> option V) (pairs : list (string * V)) :
  (forall k v, In (k, v) pairs -> f k = Some v) ->
  forall k,
    (In k (map fst pairs) -> dict_get (dict_of pairs) k = f k)
    /\ (~ In k (map fst pairs) -> dict_get (dict_of pairs) k = None).
Proof.
  intros Hf k.
  assert (Hinv : forall (ps : list (string * V)) d,
            (forall k v, In (k, v) ps -> f k = Some v) ->
            (forall k v, dict_get d k = Some v -> f k = Some v) ->
            forall k v,
              dict_get (fold_left (fun d kv => dict_set d (fst kv) (snd kv)) ps d) k
                = Some v ->
              f k = Some v).
  { induction ps as [|[k0 v0] ps IH]; intros d Hps Hd k1 v1; cbn [fold_left fst snd].
    - apply Hd.
    - apply IH.
      + intros k2 v2 Hin. apply Hps. now right.
      + intros k2 v2. rewrite dict_get_dict_set.
        destruct (String.eqb_spec k2 k0) as [->|]; [|apply Hd].
        intros E. injection E as <-. apply Hps. now left. }
  split.
  - intros Hin. apply keys_dict_of in Hin. apply dict_get_keys in Hin.
    destruct Hin as [v Hv]. rewrite Hv. symmetry.
    apply (Hinv pairs [] Hf); [intros ? ? E; discriminate E|exact Hv].
  - intros Hnin. destruct (dict_get (dict_of pairs) k) as [v|] eqn:E; [|reflexivity].
    exfalso. apply Hnin. apply keys_dict_of. apply dict_get_keys. eauto.
Qed.





(** ** [group(how="zip")]: edge cases of the partition *)

Lemma pairs_by_name_cons {V} (arrays : Dict V) n names :
  pairs_by_name arrays (n :: names) =
    rbind (getitem arrays n)
      (fun v => rbind (pairs_by_name arrays names) (fun ys => Ok ((n, v) :: ys))).
Proof.
  unfold pairs_by_name. cbn [comprehension].
  destruct (getitem arrays n); reflexivity.
Qed.







(** *** Nothing is lost *)

Lemma place_permutation ao name os : forall js js',
  Ak.place ao name os js = Some js' ->
  Permutation (concat js') (name :: concat js)
  /\ List.length js' = List.length js
  /\ (Forall (fun j => j <> []) js -> Forall (fun j => j <> []) js').
Proof.
  induction os as [|o os IH]; intros js js'; cbn [Ak.place]; [discriminate|].
  destruct js as [|j js]; [discriminate|].
  destruct (array_equal _ _).
  - intros E. injection E as <-. cbn [concat List.length]. split; [|split].
    + rewrite <- app_assoc. cbn [app]. symmetry. apply Permutation_middle.
    + reflexivity.
    + intros H. inversion H; subst. constructor; [|assumption].
      intros E. apply app_eq_nil in E. destruct E as [_ E]. discriminate.
  - destruct (Ak.place ao name os js) as [js1|] eqn:E1; cbn [option_map]; [|discriminate].
    intros E. injection E as <-. destruct (IH js js1 E1) as (P & L & F).
    cbn [concat List.length]. split; [|split].
    + rewrite (Permutation_app_head j P). symmetry. apply Permutation_middle.
    + now rewrite L.
    + intros H. inversion H; subst. constructor; auto.
Qed.

Lemma partition_step_permutation arrays st name c st' :
  Ak.partition_step arrays st (name, c) = Ok st' ->
  Shape.partition_sound st ->
  Permutation (Ak.nonjagged st' ++ concat (Ak.jaggeds st'))
              (name :: Ak.nonjagged st ++ concat (Ak.jaggeds st))
  /\ Shape.partition_sound st'.
Proof.
  unfold Ak.partition_step, Shape.partition_sound.
  destruct (getitem arrays name) as [array|e]; cbn [rbind]; [|discriminate].
  intros H [Hl Hf].
  assert (Hnew :
    Permutation (Ak.nonjagged st ++ concat (Ak.jaggeds st ++ [[name]]))
                (name :: Ak.nonjagged st ++ concat (Ak.jaggeds st))).
  { rewrite concat_app. cbn [concat]. rewrite app_nil_r, app_assoc.
    symmetry. apply Permutation_cons_append. }
  assert (Hnewsound :
    forall ao, List.length (Ak.offsets st ++ [ao]) = List.length (Ak.jaggeds st ++ [[name]])
               /\ Forall (fun j => j <> []) (Ak.jaggeds st ++ [[name]])).
  { intros ao. rewrite !length_app, Hl. split; [reflexivity|].
    apply Forall_app. split; [exact Hf|]. constructor; [discriminate|constructor]. }
  destruct (is_jagged c).
  - destruct (Ak.offsets_of array) as [ao|e]; cbn [rbind] in H; [|discriminate].
    destruct (Nat.eqb _ 0).
    + injection H as <-. cbn [Ak.nonjagged Ak.offsets Ak.jaggeds]. now split.
    + destruct (Ak.place ao name (Ak.offsets st) (Ak.jaggeds st)) as [js'|] eqn:Ep.
      * injection H as <-. cbn [Ak.nonjagged Ak.offsets Ak.jaggeds].
        destruct (place_permutation _ _ _ _ _ Ep) as (P & L & F).
        split; [|split; [congruence|auto]].
        rewrite (Permutation_app_head _ P). symmetry. apply Permutation_middle.
      * injection H as <-. cbn [Ak.nonjagged Ak.offsets Ak.jaggeds]. now split.
  - injection H as <-. cbn [Ak.nonjagged Ak.offsets Ak.jaggeds].
    split; [|now split].
    rewrite <- app_assoc. cbn [app]. symmetry. apply Permutation_middle.
Qed.

Lemma partition_loop_permutation arrays ctx : forall st p,
  for_each (Ak.partition_step arrays) ctx st = Ok p ->
  Shape.partition_sound st ->
  Permutation (Ak.nonjagged p ++ concat (Ak.jaggeds p))
              (map fst ctx ++ Ak.nonjagged st ++ concat (Ak.jaggeds st))
  /\ Shape.partition_sound p.
Proof.
  induction ctx as [|[n c] ctx IH]; intros st p; cbn [for_each map fst app].
  - intros E Hs. injection E as <-. now split.
  - destruct (Ak.partition_step arrays st (n, c)) as [st'|e] eqn:Es; cbn [rbind];
      [|discriminate].
    intros E Hs. destruct (partition_step_permutation _ _ _ _ _ Es Hs) as [P1 Hs'].
    destruct (IH st' p E Hs') as [P2 Hp]. split; [|exact Hp].
    rewrite P2, P1. symmetry. apply Permutation_middle.
Qed.

(** X11: on well-formed input the partition of [how="zip"] loses and
    duplicates nothing: the non-jagged names followed by the clusters'
    members are a rearrangement of the names of the expression context
    (repeated names counted as often as they occur); there are as many
    offsets as clusters, no cluster is empty, and the non-jagged names keep
    their order. *)
Theorem partition_keeps_every_field arrays off ctx :
  Spec.well_formed arrays off ctx ->
  exists p,
    Ak.partition arrays ctx = Ok p
    /\ Permutation (Ak.nonjagged p ++ concat (Ak.jaggeds p)) (map fst ctx)
    /\ List.length (Ak.offsets p) = List.length (Ak.jaggeds p)
    /\ Forall (fun j => j <> []) (Ak.jaggeds p)
    /\ Ak.nonjagged p = Spec.nonjagged_names ctx.
Proof.
  intros Hwf.
  pose proof (partition_characterized arrays off ctx Hwf) as Hp.
  eexists. split; [exact Hp|].
  unfold Ak.partition in Hp.
  destruct (partition_loop_permutation arrays ctx _ _ Hp) as [P [L F]].
  { split; [reflexivity|constructor]. }
  cbn [Ak.nonjagged Ak.jaggeds Ak.offsets concat app] in P.
  rewrite app_nil_r in P.
  split; [exact P|]. split; [exact L|]. split; [exact F|reflexivity].
Qed.

Lemma partition_keeps_every_field_witness :
  exists p,
    Ak.partition Spec.muon_arrays Spec.muon_context = Ok p
    /\ Permutation (Ak.nonjagged p ++ concat (Ak.jaggeds p))
                   (map fst Spec.muon_context)
    /\ List.length (Ak.offsets p) = List.length (Ak.jaggeds p)
    /\ Forall (fun j => j <> []) (Ak.jaggeds p)
    /\ Ak.nonjagged p = Spec.nonjagged_names Spec.muon_context.
Proof.
  apply (partition_keeps_every_field Spec.muon_arrays
           (fun _ => Ak.Index32 (mkIntArray int32 [0; 2; 3]%Z)) Spec.muon_context).
  intros name c Hin. simpl in Hin.
  destruct Hin as [E|[E|[E|[]]]]; injection E as <- <-;
    eexists; (split; [reflexivity|]); intros; try reflexivity; discriminate.
Defined.

(** *** Ill-formed fields *)

(** X12: with [how="zip"], the first field that has no array raises
    [KeyError] for its name, and the first field flagged as jagged whose
    array has no offsets (a flat array, a record) raises [AttributeError];
    the fields after it are not looked at. *)
Theorem zip_ill_formed_field arrays off good name c rest e w :
  available "awkward1" w = true ->
  Spec.well_formed arrays off good ->
  (dict_get arrays name = None /\ e = KeyError name)
  \/ (is_jagged c = true
      /\ exists a, dict_get arrays name = Some a /\ Ak.offsets_of a = Raise e) ->
  fst (Ak.group arrays (good ++ (name, c) :: rest) (how_str "zip") w) = Raise e
  /\ (e = KeyError name \/ e = AttributeError "offsets").
Proof.
  intros Ha Hwf Hbad.
  assert (Hstep : forall st, Ak.partition_step arrays st (name, c) = Raise e).
  { intros st. unfold Ak.partition_step, getitem.
    destruct Hbad as [[Hnone ->]|(Hj & a & Hsome & Hoff)].
    - now rewrite Hnone.
    - rewrite Hsome. cbn [rbind]. rewrite Hj, Hoff. reflexivity. }
  split.
  - unfold Ak.group. imported_ok Awkward Ha.
    change (String.eqb "zip" "zip") with true. cbv iota.
    unfold Ak.group_zip, Ak.partition. rewrite for_each_app.
    pose proof (partition_characterized arrays off good Hwf) as Hp.
    unfold Ak.partition in Hp. rewrite Hp. cbn [rbind for_each].
    rewrite Hstep. reflexivity.
  - destruct Hbad as [[_ ->]|(_ & a & _ & Hoff)]; [now left|right].
    destruct a; cbn in Hoff; congruence.
Qed.

Lemma zip_ill_formed_field_witness :
  fst (Ak.group Spec.muon_arrays
         ([("muon_pt", mkContext true)] ++ ("event_id", mkContext true)
            :: [("muon_eta", mkContext true)])
         (how_str "zip") (mkWorld ["awkward1"] ["numpy"] 0))
    = Raise (AttributeError "offsets")
  /\ (AttributeError "offsets" = KeyError "event_id"
      \/ AttributeError "offsets" = AttributeError "offsets").
Proof.
  apply (zip_ill_formed_field Spec.muon_arrays
           (fun _ => Ak.Index32 (mkIntArray int32 [0; 2; 3]%Z))
           [("muon_pt", mkContext true)] "event_id" (mkContext true)
           [("muon_eta", mkContext true)] (AttributeError "offsets")
           (mkWorld ["awkward1"] ["numpy"] 0)).
  - reflexivity.
  - intros n c [E|[]]. injection E as <- <-.
    eexists. split; [reflexivity|]. intros _. reflexivity.
  - right. split; [reflexivity|]. eexists. split; reflexivity.
Defined.

(** ** The names that [strip] leaves *)

Lemma lstrip_length chars s : String.length (lstrip chars s) <= String.length s.
Proof.
  induction s as [|a s IH]; cbn [lstrip String.length]; [lia|].
  destruct (char_in a chars); cbn [String.length]; lia.
Qed.

Lemma lstrip_fixed chars s :
  lstrip chars s = s ->
  match s with
  | EmptyString => True
  | String a _ => char_in a chars = false
  end.
Proof.
  destruct s as [|a s]; [trivial|]. cbn [lstrip].
  destruct (char_in a chars); [|reflexivity].
  intros E. pose proof (lstrip_length chars s) as L. rewrite E in L.
  cbn [String.length] in L. lia.
Qed.

Lemma lstrip_idempotent chars s : lstrip chars (lstrip chars s) = lstrip chars s.
Proof.
  induction s as [|a s IH]; cbn [lstrip]; [reflexivity|].
  destruct (char_in a chars) eqn:E; [exact IH|].
  cbn [lstrip]. now rewrite E.
Qed.

Lemma rstrip_idempotent chars s : rstrip chars (rstrip chars s) = rstrip chars s.
Proof.
  induction s as [|a s IH]; [reflexivity|]. cbn [rstrip].
  destruct (rstrip chars s) as [|b r] eqn:E.
  - destruct (char_in a chars) eqn:Ea; [reflexivity|].
    cbn [rstrip]. now rewrite Ea.
  - cbn [rstrip] in *. change (rstrip chars (String b r)) with
      (match rstrip chars r with
       | EmptyString => if char_in b chars then EmptyString else String b EmptyString
       | String x y => String b (String x y)
       end) in IH.
    destruct (rstrip chars r) as [|x y].
    + destruct (char_in b chars); [discriminate IH|]. now rewrite IH.
    + now rewrite IH.
Qed.

Lemma lstrip_rstrip chars s :
  lstrip chars s = s -> lstrip chars (rstrip chars s) = rstrip chars s.
Proof.
  intros H. apply lstrip_fixed in H.
  destruct s as [|a s]; [reflexivity|]. cbn [rstrip].
  destruct (rstrip chars s); rewrite ?H; cbn [lstrip]; now rewrite H.
Qed.

Lemma strip_trimmed s : Shape.trimmed (strip separators s).
Proof.
  unfold Shape.trimmed, strip. split.
  - apply lstrip_rstrip, lstrip_idempotent.
  - apply rstrip_idempotent.
Qed.

Lemma lstrip_is_suffix chars s :
  exists before, s = (before ++ lstrip chars s)%string.
Proof.
  induction s as [|a s [b IH]]; cbn [lstrip]; [now exists EmptyString|].
  destruct (char_in a chars).
  - exists (String a b). cbn. now rewrite <- IH.
  - now exists EmptyString.
Qed.

Lemma strip_is_infix s : Shape.is_infix (strip separators s) s.
Proof.
  unfold Shape.is_infix, strip.
  destruct (lstrip_is_suffix separators s) as [b Hb].
  destruct (rstrip_is_prefix separators (lstrip separators s)) as [a Ha].
  exists b, a. rewrite <- Ha. exact Hb.
Qed.

Lemma is_infix_of_prefix part n s :
  Shape.is_infix part (slice_to n s) -> Shape.is_infix part s.
Proof.
  intros (b & a & H). exists b, (a ++ slice_from n s)%string.
  rewrite <- (slice_to_from n s) at 1. rewrite H.
  now rewrite !string_app_assoc.
Qed.

Lemma is_infix_of_suffix part n s :
  Shape.is_infix part (slice_from n s) -> Shape.is_infix part s.
Proof.
  intros (b & a & H). exists (slice_to n s ++ b)%string, a.
  rewrite <- (slice_to_from n s) at 1. rewrite H.
  now rewrite !string_app_assoc.
Qed.

(** X13: when the members of a cluster share a non-empty prefix, the
    cluster's name and every member's key have no separator at either end,
    the name is a contiguous piece of the first member's name, and each key
    is a contiguous piece of its member's name. *)
Theorem cluster_names_trimmed number first rest cut common subnames :
  common_cut (first :: rest) = Ok cut ->
  cut <> 0 ->
  Prefix.cluster_names number (first :: rest) = Ok (common, subnames) ->
  Shape.trimmed common
  /\ Shape.is_infix common first
  /\ Forall2 (fun name key => Shape.trimmed key /\ Shape.is_infix key name)
             (first :: rest) subnames.
Proof.
  intros Hcut Hne Hnames. unfold Prefix.cluster_names in Hnames.
  rewrite Hcut in Hnames. cbn [rbind] in Hnames.
  destruct (Nat.eqb_spec cut 0) as [E|_]; [contradiction|].
  injection Hnames as <- <-.
  split; [apply strip_trimmed|].
  split; [eapply is_infix_of_prefix, strip_is_infix|].
  assert (Hall : forall l,
            Forall2 (fun name key => Shape.trimmed key /\ Shape.is_infix key name)
                    l (map (fun name => strip separators (slice_from cut name)) l)).
  { induction l as [|n l IH]; cbn [map]; constructor; [|exact IH].
    split; [apply strip_trimmed|eapply is_infix_of_suffix, strip_is_infix]. }
  exact (Hall (first :: rest)).
Qed.

Lemma cluster_names_trimmed_witness :
  Shape.trimmed "muon"
  /\ Shape.is_infix "muon" "_muon_pt_"
  /\ Forall2 (fun name key => Shape.trimmed key /\ Shape.is_infix key name)
             ["_muon_pt_"; "_muon_.eta"] ["pt"; "eta"].
Proof.
  apply (cluster_names_trimmed 0 "_muon_pt_" ["_muon_.eta"] 6 "muon" ["pt"; "eta"]).
  - reflexivity.
  - discriminate.
  - reflexivity.
Defined.

(** ** [Pandas._only_series] *)

Lemma only_series_frame name data columns cols : forall st : Columns.Flattened,
  let run :=
    fold_left
      (fun (st : Columns.Flattened) subname =>
         (dict_set (fst st) (name ++ subname)%string
            (Columns.OfFrame data columns subname),
          snd st ++ [(name ++ subname)%string]))
      cols st in
  snd run = snd st ++ map (fun subname => (name ++ subname)%string) cols
  /\ forall k, In k (keys (fst run))
               <-> In k (keys (fst st))
                   \/ In k (map (fun subname => (name ++ subname)%string) cols).
Proof.
  induction cols as [|sub cols IH]; intros st; cbn [fold_left map].
  - rewrite app_nil_r. split; [reflexivity|]. simpl. intuition.
  - destruct (IH (dict_set (fst st) (name ++ sub)%string
                    (Columns.OfFrame data columns sub),
                  snd st ++ [(name ++ sub)%string])) as [H1 H2].
    cbn [fst snd] in H1, H2. split.
    + rewrite H1. now rewrite <- app_assoc.
    + intros k. rewrite H2, keys_dict_set. simpl. intuition.
Qed.

Lemma only_series_step_names original st name o :
  dict_get original name = Some o ->
  exists st',
    Columns.only_series_step original st name = Ok st'
    /\ snd st' = snd st ++ Shape.expand original name
    /\ forall k, In k (keys (fst st'))
                 <-> In k (keys (fst st)) \/ In k (Shape.expand original name).
Proof.
  intros Ho. unfold Columns.only_series_step, getitem, Shape.expand.
  rewrite Ho. cbn [rbind].
  destruct o as [values index|data columns].
  - eexists. split; [reflexivity|]. cbn [fst snd]. split; [reflexivity|].
    intros k. rewrite keys_dict_set. simpl. intuition.
  - eexists. split; [reflexivity|]. apply only_series_frame.
Qed.

Lemma only_series_loop original names : forall st,
  (forall n, In n names -> exists o, dict_get original n = Some o) ->
  exists st',
    for_each (Columns.only_series_step original) names st = Ok st'
    /\ snd st' = snd st ++ flat_map (Shape.expand original) names
    /\ forall k, In k (keys (fst st'))
                 <-> In k (keys (fst st))
                     \/ In k (flat_map (Shape.expand original) names).
Proof.
  induction names as [|n names IH]; intros st Hall; cbn [for_each flat_map].
  - exists st. rewrite app_nil_r. split; [reflexivity|]. split; [reflexivity|].
    simpl. intuition.
  - destruct (Hall n (or_introl eq_refl)) as [o Ho].
    destruct (only_series_step_names original st n o Ho) as (st1 & E1 & N1 & K1).
    destruct (IH st1) as (st' & E & N & K); [intros m Hm; apply Hall; now right|].
    exists st'. rewrite E1. cbn [rbind]. split; [exact E|]. split.
    + rewrite N, N1. now rewrite <- app_assoc.
    + intros k. rewrite K, K1, in_app_iff. intuition.
Qed.

(** X14: given an array for every name, [_only_series] keeps the name of
    every series and replaces the name of every table by the name followed
    by each column name of the table, in order; the columns it returns are
    keyed by exactly these names. *)
Theorem only_series_names original names w :
  available "pandas" w = true ->
  (forall n, In n names -> exists o, dict_get original n = Some o) ->
  exists arrays,
    fst (Columns._only_series original names w)
      = Ok (arrays, flat_map (Shape.expand original) names)
    /\ forall k, In k (keys arrays) <-> In k (flat_map (Shape.expand original) names).
Proof.
  intros Ha Hall. unfold Columns._only_series. imported_ok Pandas Ha.
  destruct (only_series_loop original names ([], []) Hall) as ([arrays ns] & E & N & K).
  cbn [fst snd app] in N, K. subst ns.
  exists arrays. rewrite E. split; [reflexivity|].
  intros k. rewrite K. simpl. intuition.
Qed.

Lemma only_series_names_witness :
  let frame := Pd.DataFrame [(":x", Field (mkNdArray (Some ["x"; "y"]) [5] (Buf 0)) "x");
                             (":y", Field (mkNdArray (Some ["x"; "y"]) [5] (Buf 0)) "y")]
                 [":x"; ":y"] in
  let series := Pd.Series (Pd.Values (mkNdArray None [5] (Buf 1))) Pd.RangeIndex in
  let original := [("pos", frame); ("id", series)] in
  exists arrays,
    fst (Columns._only_series original ["id"; "pos"] (mkWorld ["pandas"] ["numpy"] 0))
      = Ok (arrays, flat_map (Shape.expand original) ["id"; "pos"])
    /\ forall k, In k (keys arrays)
                 <-> In k (flat_map (Shape.expand original) ["id"; "pos"]).
Proof.
  intros frame series original.
  apply (only_series_names original ["id"; "pos"] (mkWorld ["pandas"] ["numpy"] 0)).
  - reflexivity.
  - intros n [<-|[<-|[]]]; eexists; reflexivity.
Defined.

(** The table of a structured flat array, as [Pandas.finalize] builds it. *)
Lemma finalize_structured_frame a dnames length extra w :
  available "pandas" w = true ->
  dtype_names a = Some dnames ->
  shape a = length :: extra ->
  exists data w',
    Pd.finalize (Flat a) w
      = (Ok (Pd.DataFrame data
               (map (fun c => (":" ++ c)%string) (Spec.column_names dnames extra))),
         w')
    /\ available "pandas" w' = true.
Proof.
  intros Ha Hn Hs. unfold Pd.finalize, bind.
  assert (Hw : exists w', imported Pandas w = (Ok (Mod "pandas"), w')
                          /\ available "pandas" w' = true).
  { unfold available in *. destruct (mem "pandas" (sys_modules w)) eqn:Hl.
    - exists w. split; [apply (imported_loaded Pandas _ _ w eq_refl Hl)|now rewrite Hl].
    - cbn [orb] in Ha. rewrite (imported_unloaded Pandas _ _ w eq_refl Hl), Ha.
      eexists. split; [reflexivity|]. cbn [sys_modules mem existsb].
      now rewrite String.eqb_refl. }
  destruct Hw as (w' & -> & Hw'). rewrite Hn, Hs. cbn [tl List.length].
  destruct extra as [|d extra].
  - cbn [Nat.eqb negb ret]. rewrite column_names_one_dimension.
    do 2 eexists. split; [reflexivity|exact Hw'].
  - cbn [Nat.eqb negb ret].
    destruct (fold_fold_add_column
                (fun n tup => (":" ++ n ++ Pd.brackets tup)%string)
                (fun n tup => FieldAt a n tup)
                (Pd.product (map Pd.range (d :: extra))) dnames ([], []))
      as [H1 _].
    cbn [fst app] in H1.
    assert (Hcols : map (fun c => (":" ++ c)%string)
                        (Spec.column_names dnames (d :: extra))
                    = flat_map
                        (fun n => map (fun tup => (":" ++ n ++ Pd.brackets tup)%string)
                                      (Pd.product (map Pd.range (d :: extra))))
                        dnames).
    { unfold Spec.column_names. rewrite flat_map_map.
      apply flat_map_ext. intros n. now rewrite map_map. }
    rewrite Hcols, <- H1. do 2 eexists. split; [reflexivity|exact Hw'].
Qed.

(** X15: a structured flat array that [Pandas.finalize] has turned into a
    table and that is then flattened by [_only_series] under its branch
    name gives one column per subfield and index combination, named
    [branch:subfield] followed by the bracketed indices. *)
Theorem only_series_of_structured a dnames length extra branch w :
  available "pandas" w = true ->
  dtype_names a = Some dnames ->
  shape a = length :: extra ->
  exists frame arrays,
    fst (Pd.finalize (Flat a) w) = Ok frame
    /\ fst (Columns._only_series [(branch, frame)] [branch] (snd (Pd.finalize (Flat a) w)))
       = Ok (arrays,
             map (fun c => (branch ++ ":" ++ c)%string)
                 (Spec.column_names dnames extra))
    /\ forall k, In k (keys arrays)
                 <-> In k (map (fun c => (branch ++ ":" ++ c)%string)
                               (Spec.column_names dnames extra)).
Proof.
  intros Ha Hn Hs.
  destruct (finalize_structured_frame a dnames length extra w Ha Hn Hs)
    as (data & w' & E & Hw').
  rewrite E. cbn [fst snd].
  set (frame := Pd.DataFrame data
                  (map (fun c => (":" ++ c)%string) (Spec.column_names dnames extra))).
  destruct (only_series_names [(branch, frame)] [branch] w' Hw') as (arrays & H1 & H2).
  { intros n [<-|[]]. exists frame. cbn [dict_get]. now rewrite String.eqb_refl. }
  assert (Hx : flat_map (Shape.expand [(branch, frame)]) [branch]
               = map (fun c => (branch ++ ":" ++ c)%string)
                     (Spec.column_names dnames extra)).
  { cbn [flat_map]. unfold Shape.expand. cbn [dict_get].
    rewrite String.eqb_refl. unfold frame. rewrite map_map, app_nil_r. reflexivity. }
  rewrite Hx in H1, H2. exists frame, arrays. split; [reflexivity|]. now split.
Qed.

Lemma only_series_of_structured_witness :
  let a := mkNdArray (Some ["x"; "y"]) [5; 2] (Buf 0) in
  let w := mkWorld ["pandas"] ["numpy"] 0 in
  exists frame arrays,
    fst (Pd.finalize (Flat a) w) = Ok frame
    /\ fst (Columns._only_series [("pos", frame)] ["pos"] (snd (Pd.finalize (Flat a) w)))
       = Ok (arrays,
             map (fun c => ("pos" ++ ":" ++ c)%string)
                 (Spec.column_names ["x"; "y"] [2]))
    /\ forall k, In k (keys arrays)
                 <-> In k (map (fun c => ("pos" ++ ":" ++ c)%string)
                               (Spec.column_names ["x"; "y"] [2])).
Proof.
  intros a w.
  apply (only_series_of_structured a ["x"; "y"] 5 [2] "pos" w); reflexivity.
Defined.

(** ** The grouping of columns by index in [Pandas.group] *)

Section IndexGroups.

Variable index_equal : Pd.PdIndex -> Pd.PdIndex -> bool.

Lemma columns_place_permutation ai name indexes : forall groups groups',
  Columns.place index_equal ai name indexes groups = Some groups' ->
  Permutation (concat groups') (name :: concat groups)
  /\ List.length groups' = List.length groups
  /\ (Forall (fun g => g <> []) groups -> Forall (fun g => g <> []) groups').
Proof.
  induction indexes as [|i indexes IH]; intros groups groups'; cbn [Columns.place];
    [discriminate|].
  destruct groups as [|g groups]; [discriminate|].
  destruct (index_equal ai i).
  - intros E. injection E as <-. cbn [concat List.length]. split; [|split].
    + rewrite <- app_assoc. cbn [app]. symmetry. apply Permutation_middle.
    + reflexivity.
    + intros H. inversion H; subst. constructor; [|assumption].
      intros E. apply app_eq_nil in E. destruct E as [_ E]. discriminate.
  - destruct (Columns.place index_equal ai name indexes groups) as [gs|] eqn:E1;
      cbn [option_map]; [|discriminate].
    intros E. injection E as <-. destruct (IH groups gs E1) as (P & L & F).
    cbn [concat List.length]. split; [|split].
    + rewrite (Permutation_app_head g P). symmetry. apply Permutation_middle.
    + now rewrite L.
    + intros H. inversion H; subst. constructor; auto.
Qed.

Lemma group_step_permutation arrays st name col :
  dict_get arrays name = Some col ->
  List.length (fst st) = List.length (snd st) ->
  Forall (fun g => g <> []) (snd st) ->
  exists st',
    Columns.group_step index_equal arrays st name = Ok st'
    /\ List.length (fst st') = List.length (snd st')
    /\ Forall (fun g => g <> []) (snd st')
    /\ Permutation (concat (snd st'))
         ((if Shape.ragged arrays name then [name] else []) ++ concat (snd st)).
Proof.
  intros Hcol Hl Hf. unfold Columns.group_step, getitem, Shape.ragged.
  rewrite Hcol. cbn [rbind].
  destruct (Columns.is_MultiIndex (Columns.index_of col)).
  - destruct (Columns.place index_equal (Columns.index_of col) name (fst st) (snd st))
      as [gs|] eqn:Ep.
    + destruct (columns_place_permutation _ _ _ _ _ Ep) as (P & L & F).
      eexists. split; [reflexivity|]. cbn [fst snd].
      split; [congruence|]. split; [auto|exact P].
    + eexists. split; [reflexivity|]. cbn [fst snd].
      rewrite !length_app, Hl. split; [reflexivity|]. split.
      * apply Forall_app. split; [exact Hf|]. constructor; [discriminate|constructor].
      * rewrite concat_app. cbn [concat app].
        symmetry. apply Permutation_cons_append.
  - exists st. split; [reflexivity|]. split; [exact Hl|]. split; [exact Hf|reflexivity].
Qed.

Lemma index_groups_loop arrays names : forall st,
  (forall n, In n names -> exists col, dict_get arrays n = Some col) ->
  List.length (fst st) = List.length (snd st) ->
  Forall (fun g => g <> []) (snd st) ->
  exists st',
    for_each (Columns.group_step index_equal arrays) names st = Ok st'
    /\ List.length (fst st') = List.length (snd st')
    /\ Forall (fun g => g <> []) (snd st')
    /\ Permutation (concat (snd st'))
         (filter (Shape.ragged arrays) names ++ concat (snd st)).
Proof.
  induction names as [|n names IH]; intros st Hall Hl Hf; cbn [for_each filter].
  - exists st. split; [reflexivity|]. split; [exact Hl|]. split; [exact Hf|reflexivity].
  - destruct (Hall n (or_introl eq_refl)) as [col Hcol].
    destruct (group_step_permutation arrays st n col Hcol Hl Hf)
      as (st1 & E1 & L1 & F1 & P1).
    destruct (IH st1) as (st' & E & L & F & P); auto.
    { intros m Hm. apply Hall. now right. }
    exists st'. rewrite E1. cbn [rbind]. split; [exact E|].
    split; [exact L|]. split; [exact F|].
    rewrite P, P1. destruct (Shape.ragged arrays n); cbn [app].
    + symmetry. apply Permutation_middle.
    + reflexivity.
Qed.

Lemma flat_names_loop arrays names : forall acc,
  (forall n, In n names -> exists col, dict_get arrays n = Some col) ->
  for_each
    (fun acc name =>
       array <~ getitem arrays name ;;
       Ok (if Columns.is_RangeIndex (Columns.index_of array)
           then acc ++ [name] else acc))
    names acc
  = Ok (acc ++ filter (fun n => negb (Shape.ragged arrays n)) names).
Proof.
  induction names as [|n names IH]; intros acc Hall; cbn [for_each filter].
  - now rewrite app_nil_r.
  - destruct (Hall n (or_introl eq_refl)) as [col Hcol].
    unfold getitem at 1, Shape.ragged at 1. rewrite Hcol. cbn [rbind].
    rewrite IH by (intros m Hm; apply Hall; now right).
    destruct (Columns.index_of col); cbn; [now rewrite <- app_assoc|reflexivity].
Qed.

Lemma all_RangeIndex_not_ragged arrays name :
  Columns.all_RangeIndex arrays = true -> Shape.ragged arrays name = false.
Proof.
  unfold Columns.all_RangeIndex, Shape.ragged, values.
  induction arrays as [|[k col] arrays IH]; cbn [map forallb dict_get snd];
    [reflexivity|].
  intros H. apply andb_true_iff in H. destruct H as [Hc Hrest].
  destruct (String.eqb name k); [|now apply IH].
  destruct (Columns.index_of col); [reflexivity|discriminate].
Qed.

(** X16: given a column for every name, the grouping loop of
    [Pandas.group] puts every column with a two-level index into exactly one
    group and no other column into any (whatever the comparison of indexes
    answers); it keeps one index per group and no empty group; [flat_names]
    are the remaining names in order; and when every column has the default
    index there is no group at all. *)
Theorem index_groups_partition arrays names :
  (forall n, In n names -> exists col, dict_get arrays n = Some col) ->
  exists indexes groups,
    Columns.index_groups index_equal arrays names = Ok (indexes, groups)
    /\ List.length indexes = List.length groups
    /\ Forall (fun g => g <> []) groups
    /\ Permutation (concat groups) (filter (Shape.ragged arrays) names)
    /\ Columns.flat_names arrays names
       = Ok (filter (fun n => negb (Shape.ragged arrays n)) names)
    /\ (Columns.all_RangeIndex arrays = true -> indexes = [] /\ groups = []).
Proof.
  intros Hall.
  destruct (index_groups_loop arrays names ([], []) Hall eq_refl (Forall_nil _))
    as ([indexes groups] & E & L & F & P).
  cbn [fst snd concat] in L, F, P. rewrite app_nil_r in P.
  exists indexes, groups. split; [exact E|]. split; [exact L|]. split; [exact F|].
  split; [exact P|]. split; [apply (flat_names_loop arrays names [] Hall)|].
  intros Hflat.
  assert (Hnone : filter (Shape.ragged arrays) names = []).
  { clear -Hflat. induction names as [|n names IH]; cbn [filter]; [reflexivity|].
    now rewrite (all_RangeIndex_not_ragged arrays n Hflat). }
  rewrite Hnone in P. apply Permutation_sym, Permutation_nil in P.
  assert (Hg : groups = []).
  { destruct groups as [|g groups]; [reflexivity|].
    inversion F as [|? ? Hg _]; subst. cbn [concat] in P.
    apply app_eq_nil in P. destruct P as [P _]. contradiction. }
  subst groups. split; [|reflexivity].
  destruct indexes; [reflexivity|discriminate L].
Qed.

End IndexGroups.

Lemma index_groups_partition_witness :
  let eqb (a b : Pd.PdIndex) :=
    match a, b with
    | Pd.EntrySubentry x, Pd.EntrySubentry y => array_equal x y
    | Pd.RangeIndex, Pd.RangeIndex => true
    | _, _ => false
    end in
  let ragged o := Columns.OfSeries (Pd.Content (mkNdArray None [3] (Buf 0)))
                    (Pd.EntrySubentry (mkIntArray int32 o)) in
  let arrays := [("muon_pt", ragged [0; 2; 3]%Z); ("jet_pt", ragged [0; 1; 3]%Z);
                 ("id", Columns.OfSeries (Pd.Values (mkNdArray None [2] (Buf 1)))
                          Pd.RangeIndex);
                 ("muon_eta", ragged [0; 2; 3]%Z)] in
  let names := ["muon_pt"; "id"; "jet_pt"; "muon_eta"] in
  exists indexes groups,
    Columns.index_groups eqb arrays names = Ok (indexes, groups)
    /\ List.length indexes = List.length groups
    /\ Forall (fun g => g <> []) groups
    /\ Permutation (concat groups) (filter (Shape.ragged arrays) names)
    /\ Columns.flat_names arrays names
       = Ok (filter (fun n => negb (Shape.ragged arrays n)) names)
    /\ (Columns.all_RangeIndex arrays = true -> indexes = [] /\ groups = []).
Proof.
  intros eqb ragged arrays names.
  apply (index_groups_partition eqb arrays names).
  intros n [<-|[<-|[<-|[<-|[]]]]]; eexists; reflexivity.
Defined.

(** ** [Awkward.finalize]: strings *)



(** ** [Pandas.finalize]: no column is overwritten *)

Lemma str_of_nat_inj n m : str_of_nat n = str_of_nat m -> n = m.
Proof.
  unfold str_of_nat. intros H.
  assert (E : Nat.to_uint n = Nat.to_uint m).
  { pose proof (NilEmpty.usu (Nat.to_uint n)) as Hn.
    pose proof (NilEmpty.usu (Nat.to_uint m)) as Hm.
    rewrite H in Hn. congruence. }
  rewrite <- (DecimalNat.Unsigned.of_to n), <- (DecimalNat.Unsigned.of_to m).
  now rewrite E.
Qed.

Lemma str_of_nat_no_bracket n :
  char_in "["%char (str_of_nat n) = false /\ char_in "]"%char (str_of_nat n) = false.
Proof.
  unfold str_of_nat. generalize (Nat.to_uint n). intros d.
  induction d as [|d [IH1 IH2]|d [IH1 IH2]|d [IH1 IH2]|d [IH1 IH2]|d [IH1 IH2]
                  |d [IH1 IH2]|d [IH1 IH2]|d [IH1 IH2]|d [IH1 IH2]|d [IH1 IH2]];
    cbn [NilEmpty.string_of_uint char_in]; [split; reflexivity|..];
    rewrite IH1, IH2; split; reflexivity.
Qed.

Lemma char_in_app c (a b : string) :
  char_in c (a ++ b) = char_in c a || char_in c b.
Proof.
  induction a as [|x a IH]; cbn [append char_in]; [reflexivity|].
  now rewrite IH, orb_assoc.
Qed.

(** A string is cut in one way only at the last occurrence of a
    character. *)
Lemma split_at_last c m1 : forall m2 d1 d2,
  (m1 ++ String c d1)%string = (m2 ++ String c d2)%string ->
  char_in c d1 = false -> char_in c d2 = false ->
  m1 = m2 /\ d1 = d2.
Proof.
  induction m1 as [|x m1 IH]; intros [|y m2] d1 d2 E H1 H2; cbn [append] in E.
  - injection E as ->. now split.
  - injection E as -> ->. rewrite char_in_app in H1. cbn [char_in] in H1.
    rewrite Ascii.eqb_refl in H1. cbn in H1. rewrite orb_true_r in H1. discriminate.
  - injection E as -> <-. rewrite char_in_app in H2. cbn [char_in] in H2.
    rewrite Ascii.eqb_refl in H2. cbn in H2. rewrite orb_true_r in H2. discriminate.
  - injection E as -> E. destruct (IH m2 d1 d2 E H1 H2) as [-> ->]. now split.
Qed.

Lemma string_concat_cons x xs :
  String.concat "" (x :: xs) = (x ++ String.concat "" xs)%string.
Proof.
  destruct xs; cbn [String.concat]; [now rewrite string_app_empty_r|reflexivity].
Qed.

Lemma brackets_snoc t x :
  Pd.brackets (t ++ [x]) = (Pd.brackets t ++ String "[" (str_of_nat x ++ "]"))%string.
Proof.
  unfold Pd.brackets. induction t as [|y t IH]; cbn [map app].
  - reflexivity.
  - rewrite !string_concat_cons, IH. symmetry. apply string_app_assoc.
Qed.

Lemma name_brackets_inj t1 : forall t2 n1 n2,
  List.length t1 = List.length t2 ->
  (n1 ++ Pd.brackets t1)%string = (n2 ++ Pd.brackets t2)%string ->
  n1 = n2 /\ t1 = t2.
Proof.
  induction t1 as [|x1 t1 IH] using rev_ind; intros t2 n1 n2 Hl E.
  - destruct t2; [|discriminate Hl].
    change (Pd.brackets []) with EmptyString in E.
    rewrite !string_app_empty_r in E. now split.
  - destruct t2 as [|x2 t2] using rev_ind;
      [rewrite length_app in Hl; cbn in Hl; lia|].
    clear IHt2. rewrite !length_app in Hl. cbn in Hl.
    rewrite !brackets_snoc, <- !string_app_assoc in E.
    destruct (str_of_nat_no_bracket x1) as [A1 B1].
    destruct (str_of_nat_no_bracket x2) as [A2 B2].
    apply split_at_last in E;
      [|rewrite char_in_app, ?A1, ?A2; reflexivity..].
    destruct E as [E Ex].
    destruct (IH t2 n1 n2 ltac:(lia) E) as [-> ->].
    apply (split_at_last "]"%char) in Ex; [|reflexivity..].
    destruct Ex as [Ex _]. apply str_of_nat_inj in Ex. subst. now split.
Qed.

Lemma NoDup_flat_map {A B} (f : A -> list B) (l : list A) :
  NoDup l ->
  (forall x, In x l -> NoDup (f x)) ->
  (forall x1 x2 y, In x1 l -> In x2 l -> In y (f x1) -> In y (f x2) -> x1 = x2) ->
  NoDup (flat_map f l).
Proof.
  induction 1 as [|x l Hx Hl IH]; intros Hf Hsep; cbn [flat_map]; [constructor|].
  apply NoDup_app.
  - apply Hf. now left.
  - apply IH.
    + intros z Hz. apply Hf. now right.
    + intros x1 x2 y H1 H2. apply Hsep; now right.
  - intros y Hy Hy'. apply in_flat_map in Hy'. destruct Hy' as (z & Hz & Hyz).
    assert (x = z) by (apply (Hsep x z y); [now left|now right|assumption..]).
    subst. contradiction.
Qed.

Lemma NoDup_map_in {A B} (f : A -> B) (l : list A) :
  (forall x y, In x l -> In y l -> f x = f y -> x = y) ->
  NoDup l -> NoDup (map f l).
Proof.
  intros Hinj. induction 1 as [|x l Hx Hl IH]; cbn [map]; constructor.
  - intros H. apply in_map_iff in H. destruct H as (y & E & Hy).
    assert (y = x) by (apply Hinj; [now right|now left|exact E]).
    subst. contradiction.
  - apply IH. intros a b Ha Hb. apply Hinj; now right.
Qed.

Lemma product_from_NoDup (pools : list (list nat)) : forall acc : list (list nat),
  NoDup acc ->
  Forall (fun pool => NoDup pool) pools ->
  NoDup (fold_left
           (fun result pool => flat_map (fun x => map (fun y => x ++ [y]) pool) result)
           pools acc).
Proof.
  induction pools as [|pool pools IH]; intros acc Hacc Hpools; cbn [fold_left];
    [exact Hacc|].
  inversion Hpools as [|? ? Hpool Hrest]; subst.
  apply IH; [|exact Hrest].
  apply NoDup_flat_map; [exact Hacc| |].
  - intros x _. apply NoDup_map_in; [|exact Hpool].
    intros y y' _ _ E. now apply app_inj_tail in E.
  - intros x1 x2 t _ _ H1 H2.
    apply in_map_iff in H1, H2.
    destruct H1 as (y1 & <- & _), H2 as (y2 & E & _).
    now apply app_inj_tail in E.
Qed.

Lemma product_NoDup dims : NoDup (Pd.product (map Pd.range dims)).
Proof.
  unfold Pd.product. apply product_from_NoDup.
  - constructor; [intros []|constructor].
  - apply Forall_forall. intros pool H. apply in_map_iff in H.
    destruct H as (d & <- & _). apply seq_NoDup.
Qed.

Lemma product_tuple_length dims tup :
  In tup (Pd.product (map Pd.range dims)) -> List.length tup = List.length dims.
Proof.
  intros H. apply product_In in H.
  induction H; cbn [List.length]; [reflexivity|now f_equal].
Qed.

Lemma dict_set_fresh {V} (d : Dict V) k v :
  ~ In k (keys d) -> dict_set d k v = d ++ [(k, v)].
Proof.
  induction d as [|[k0 v0] d IH]; cbn [dict_set keys map fst In app]; [reflexivity|].
  intros H. destruct (String.eqb_spec k k0) as [->|_]; [tauto|].
  rewrite IH; [reflexivity|]. unfold keys. tauto.
Qed.

Lemma fold_add_column_fresh {A} (f : A -> string) (g : A -> NpValue) (l : list A) :
  forall st : Pd.Columns,
  NoDup (keys (snd st) ++ map f l) ->
  snd (fold_left (fun st x => Pd.add_column st (f x) (g x)) l st)
    = snd st ++ map (fun x => (f x, g x)) l.
Proof.
  induction l as [|x l IH]; intros st H; cbn [fold_left map].
  - now rewrite app_nil_r.
  - rewrite IH.
    + unfold Pd.add_column. cbn [snd]. rewrite dict_set_fresh.
      * now rewrite <- app_assoc.
      * apply NoDup_remove_2 in H. intros Hin. apply H, in_or_app. now left.
    + unfold Pd.add_column. cbn [snd]. rewrite dict_set_fresh.
      * unfold keys in *. rewrite map_app, <- app_assoc. exact H.
      * apply NoDup_remove_2 in H. intros Hin. apply H, in_or_app. now left.
Qed.

Lemma nested_fold_pairs {S A B} (step : S -> A -> B -> S) (P : list B) (l : list A) :
  forall st,
    fold_left (fun st n => fold_left (fun st t => step st n t) P st) l st
    = fold_left (fun st nt => step st (fst nt) (snd nt))
        (flat_map (fun n => map (pair n) P) l) st.
Proof.
  induction l as [|n l IH]; intros st; cbn [fold_left flat_map]; [reflexivity|].
  rewrite fold_left_app, <- IH. f_equal.
  clear. revert st. induction P as [|t P IHP]; intros st; cbn [fold_left map];
    [reflexivity|apply IHP].
Qed.

Lemma dict_of_fresh {V} (pairs : list (string * V)) :
  NoDup (map fst pairs) -> dict_of pairs = pairs.
Proof.
  unfold dict_of. intros H.
  assert (G : forall d, NoDup (keys d ++ map fst pairs) ->
                        fold_left (fun d kv => dict_set d (fst kv) (snd kv)) pairs d
                        = d ++ pairs).
  { clear H. induction pairs as [|[k v] pairs IH]; intros d Hd;
      cbn [fold_left fst snd map] in *.
    - now rewrite app_nil_r.
    - rewrite dict_set_fresh.
      + rewrite IH; [now rewrite <- app_assoc|].
        unfold keys in *. rewrite map_app, <- app_assoc. exact Hd.
      + apply NoDup_remove_2 in Hd. intros Hin. apply Hd, in_or_app. now left. }
  apply (G [] H).
Qed.

Lemma structured_names_NoDup dnames dims :
  NoDup dnames ->
  NoDup (flat_map
           (fun n => map (fun tup => (":" ++ n ++ Pd.brackets tup)%string)
                         (Pd.product (map Pd.range dims)))
           dnames).
Proof.
  intros Hn. apply NoDup_flat_map; [exact Hn| |].
  - intros n _. apply NoDup_map_in; [|apply product_NoDup].
    intros t1 t2 H1 H2 E. cbn [append] in E. injection E as E.
    apply name_brackets_inj in E; [tauto|].
    now rewrite (product_tuple_length _ _ H1), (product_tuple_length _ _ H2).
  - intros n1 n2 y _ _ H1 H2. apply in_map_iff in H1, H2.
    destruct H1 as (t1 & <- & H1), H2 as (t2 & E & H2).
    cbn [append] in E. injection E as E. symmetry in E.
    apply name_brackets_inj in E; [tauto|].
    now rewrite (product_tuple_length _ _ H1), (product_tuple_length _ _ H2).
Qed.

(** X17: when the subfield names of a structured flat array are distinct,
    the columns of the table [Pandas.finalize] builds have distinct names,
    so that no column overwrites another: the table's data are, in column
    order, [array[subfield]] for one dimension and
    [array[subfield][:, indices]] for each index combination otherwise. *)
Theorem finalize_structured_data a dnames length extra w :
  available "pandas" w = true ->
  dtype_names a = Some dnames ->
  shape a = length :: extra ->
  NoDup dnames ->
  exists data columns,
    fst (Pd.finalize (Flat a) w) = Ok (Pd.DataFrame data columns)
    /\ NoDup columns
    /\ keys data = columns
    /\ columns = map (fun c => (":" ++ c)%string) (Spec.column_names dnames extra)
    /\ data =
         match extra with
         | [] => map (fun x => ((":" ++ x)%string, Field a x)) dnames
         | _ =>
             flat_map
               (fun n => map (fun tup => ((":" ++ n ++ Pd.brackets tup)%string,
                                          FieldAt a n tup))
                             (Pd.product (map Pd.range extra)))
               dnames
         end.
Proof.
  intros Ha Hn Hs Hnd. unfold Pd.finalize. imported_ok Pandas Ha.
  rewrite Hn, Hs. cbn [tl List.length].
  destruct extra as [|d extra].
  - cbn [Nat.eqb negb ret fst].
    assert (Hk : map fst (map (fun x => ((":" ++ x)%string, Field a x)) dnames)
                 = map (fun x => (":" ++ x)%string) dnames)
      by (rewrite map_map; reflexivity).
    assert (Hcols : NoDup (map (fun x => (":" ++ x)%string) dnames)).
    { apply NoDup_map_in; [|exact Hnd]. intros x y _ _ E. now injection E. }
    do 2 eexists. split; [reflexivity|]. rewrite dict_of_fresh by now rewrite Hk.
    split; [exact Hcols|]. split; [exact Hk|].
    split; [now rewrite column_names_one_dimension|reflexivity].
  - cbn [Nat.eqb negb ret fst].
    set (P := Pd.product (map Pd.range (d :: extra))).
    set (names := flat_map
                    (fun n => map (fun tup => (":" ++ n ++ Pd.brackets tup)%string) P)
                    dnames).
    pose proof (structured_names_NoDup dnames (d :: extra) Hnd) as Hcols.
    fold P in Hcols. fold names in Hcols.
    destruct (fold_fold_add_column
                (fun n tup => (":" ++ n ++ Pd.brackets tup)%string)
                (fun n tup => FieldAt a n tup) P dnames ([], [])) as [H1 _].
    cbn [fst app] in H1. fold names in H1.
    assert (Hdata :
      snd (fold_left
             (fun st n =>
                fold_left
                  (fun st tup =>
                     Pd.add_column st (":" ++ n ++ Pd.brackets tup)%string
                       (FieldAt a n tup)) P st)
             dnames ([], []))
      = flat_map
          (fun n => map (fun tup => ((":" ++ n ++ Pd.brackets tup)%string,
                                     FieldAt a n tup)) P)
          dnames).
    { rewrite (nested_fold_pairs
                 (fun (st : Pd.Columns) n tup =>
                    Pd.add_column st (":" ++ n ++ Pd.brackets tup)%string
                      (FieldAt a n tup)) P dnames).
      rewrite (fold_add_column_fresh
                 (fun nt : string * list nat =>
                    (":" ++ fst nt ++ Pd.brackets (snd nt))%string)
                 (fun nt => FieldAt a (fst nt) (snd nt))).
      - cbn [snd app]. rewrite flat_map_map. apply flat_map_ext.
        intros n. now rewrite map_map.
      - cbn [snd keys map app]. rewrite flat_map_map.
        erewrite flat_map_ext; [exact Hcols|].
        intros n. now rewrite map_map. }
    do 2 eexists. split; [reflexivity|]. rewrite H1, Hdata.
    split; [exact Hcols|]. split.
    + unfold keys. rewrite flat_map_map. apply flat_map_ext.
      intros n. now rewrite map_map.
    + split; [|reflexivity].
      unfold names, Spec.column_names. rewrite flat_map_map.
      apply flat_map_ext. intros n. now rewrite map_map.
Qed.

Lemma finalize_structured_data_witness :
  let a := mkNdArray (Some ["x"; "y"]) [5; 2] (Buf 0) in
  exists data columns,
    fst (Pd.finalize (Flat a) (mkWorld ["pandas"] ["numpy"] 0))
      = Ok (Pd.DataFrame data columns)
    /\ NoDup columns
    /\ keys data = columns
    /\ columns = map (fun c => (":" ++ c)%string) (Spec.column_names ["x"; "y"] [2])
    /\ data =
         flat_map
           (fun n => map (fun tup => ((":" ++ n ++ Pd.brackets tup)%string,
                                      FieldAt a n tup))
                         (Pd.product (map Pd.range [2])))
           ["x"; "y"].
Proof.
  intros a.
  apply (finalize_structured_data a ["x"; "y"] 5 [2] (mkWorld ["pandas"] ["numpy"] 0));
    try reflexivity.
  repeat constructor; simpl; intuition discriminate.
Defined.

(** ** [group(how="zip")]: the fields that are not clusters *)

Lemma pairs_by_name_values {V} (arrays : Dict V) names : forall pairs,
  pairs_by_name arrays names = Ok pairs ->
  map fst pairs = names
  /\ forall k v, In (k, v) pairs -> dict_get arrays k = Some v.
Proof.
  induction names as [|n names IH]; intros pairs.
  - intros E. injection E as <-. split; [reflexivity|intros ? ? []].
  - rewrite pairs_by_name_cons. unfold getitem.
    destruct (dict_get arrays n) as [v|] eqn:Ev; cbn [rbind]; [|discriminate].
    destruct (pairs_by_name arrays names) as [ys|e]; cbn [rbind]; [|discriminate].
    intros E. injection E as <-. destruct (IH ys eq_refl) as [H1 H2].
    cbn [map fst]. split; [now rewrite H1|].
    intros k v' [E|Hin]; [injection E as <- <-; exact Ev|now apply H2].
Qed.

(** X18: on well-formed input, a top-level field of the [how="zip"] result
    whose name is not the common name of any cluster is one of the
    non-jagged fields and holds that field's array unchanged; no other name
    appears at the top level. *)
Theorem zip_keeps_flat_fields arrays off ctx w :
  available "awkward1" w = true ->
  Spec.well_formed arrays off ctx ->
  exists p out,
    Ak.partition arrays ctx = Ok p
    /\ fst (Ak.group arrays ctx (how_str "zip") w)
       = Ok match out with
            | Some o => Native o
            | None => PyNone
            end
    /\ forall k,
         (forall n j c s, In (n, j) (enumerate (Ak.jaggeds p)) ->
            Ak.cluster_record arrays n j = Ok (c, s) -> c <> k) ->
         (In k (Spec.nonjagged_names ctx) ->
            dict_get (Ak.top_fields out) k = dict_get arrays k)
         /\ (~ In k (Spec.nonjagged_names ctx) ->
               dict_get (Ak.top_fields out) k = None).
Proof.
  intros Hav Hwf.
  pose proof (partition_characterized arrays off ctx Hwf) as Hp.
  set (names := Spec.jagged_names ctx) in *.
  set (clusters := map (Spec.members off names) (Spec.first_seen (map off names))) in *.
  assert (Hout0 : exists out0,
            (if negb (Nat.eqb (List.length (Spec.nonjagged_names ctx)) 0) then
               pairs <~ pairs_by_name arrays (Spec.nonjagged_names ctx) ;;
               Ok (Some (Ak.zip (dict_of pairs) (Some 1)))
             else Ok None) = Ok out0
            /\ Spec.shaped out0
            /\ forall k,
                 (In k (Spec.nonjagged_names ctx) ->
                    dict_get (Ak.top_fields out0) k = dict_get arrays k)
                 /\ (~ In k (Spec.nonjagged_names ctx) ->
                       dict_get (Ak.top_fields out0) k = None)).
  { destruct (Spec.nonjagged_names ctx) as [|n0 flat] eqn:Eflat.
    - exists None. cbn. split; [reflexivity|]. split; [now left|].
      intros k. split; [intros []|reflexivity].
    - destruct (comprehension_keyed arrays (fun n => n) (n0 :: flat))
        as (pairs & Hpairs & _).
      { intros m Hm. rewrite <- Eflat in Hm.
        destruct (Hwf m _ (nonjagged_names_in_ctx _ _ Hm)) as (v & Hv & _).
        now exists v. }
      change (comprehension (fun name => v <~ getitem arrays name ;; Ok (name, v))
                (n0 :: flat)) with (pairs_by_name arrays (n0 :: flat)) in Hpairs.
      destruct (pairs_by_name_values arrays _ pairs Hpairs) as [Hk Hv].
      exists (Some (Ak.zip (dict_of pairs) (Some 1))).
      cbn [List.length Nat.eqb negb]. rewrite Hpairs. cbn [rbind].
      split; [reflexivity|]. split; [right; eexists; reflexivity|].
      intros k. unfold Ak.zip. cbn [Ak.top_fields].
      destruct (dict_of_values (dict_get arrays) pairs Hv k) as [A B].
      rewrite Hk in A, B. now split. }
  destruct Hout0 as (out0 & Hout0 & Hshape0 & Hvals0).
  destruct (attach_loop arrays (enumerate clusters) out0 Hshape0)
    as (out' & Hrun & _ & _ & _ & _ & F3 & _).
  { intros n j Hin. apply enumerate_from_In in Hin.
    destruct (cluster_members_jagged off names j Hin) as [Hne Hsub].
    split; [exact Hne|].
    destruct (cluster_record_names arrays n j Hne) as (c & _ & fs & _ & Hr & _).
    - intros m Hm.
      destruct (Hwf m (mkContext true) (jagged_names_in_ctx _ _ (Hsub m Hm)))
        as (v & Hv & _). now exists v.
    - now exists c, (Ak.Zipped fs None). }
  assert (Hzip : Ak.group_zip arrays ctx = Ok out').
  { unfold Ak.group_zip. rewrite Hp. cbn [rbind Ak.nonjagged Ak.jaggeds].
    rewrite Hout0. cbn [rbind]. exact Hrun. }
  eexists. exists out'. split; [exact Hp|]. split.
  { unfold Ak.group. imported_ok Awkward Hav. rewrite Hzip. reflexivity. }
  cbn [Ak.jaggeds]. intros k Hk. rewrite (F3 k Hk). apply Hvals0.
Qed.

Lemma zip_keeps_flat_fields_witness :
  exists p out,
    Ak.partition Spec.muon_arrays Spec.muon_context = Ok p
    /\ fst (Ak.group Spec.muon_arrays Spec.muon_context (how_str "zip")
              (mkWorld ["awkward1"] ["numpy"] 0))
       = Ok match out with
            | Some o => Native o
            | None => PyNone
            end
    /\ forall k,
         (forall n j c s, In (n, j) (enumerate (Ak.jaggeds p)) ->
            Ak.cluster_record Spec.muon_arrays n j = Ok (c, s) -> c <> k) ->
         (In k (Spec.nonjagged_names Spec.muon_context) ->
            dict_get (Ak.top_fields out) k = dict_get Spec.muon_arrays k)
         /\ (~ In k (Spec.nonjagged_names Spec.muon_context) ->
               dict_get (Ak.top_fields out) k = None).
Proof.
  apply (zip_keeps_flat_fields Spec.muon_arrays
           (fun _ => Ak.Index32 (mkIntArray int32 [0; 2; 3]%Z))
           Spec.muon_context (mkWorld ["awkward1"] ["numpy"] 0)).
  - reflexivity.
  - intros name c Hin. simpl in Hin.
    destruct Hin as [E|[E|[E|[]]]]; injection E as <- <-;
      eexists; (split; [reflexivity|]); intros; try reflexivity; discriminate.
Defined.

(** ** What [finalize] accepts *)



(** ** [finalize], then [group(how="zip")] *)



